(** * chumby_card_reader_daemon: a shallow embedding and its properties

    The daemon of [chumby_card_reader_daemon.c] does three things:
    - it edits the usb-storage quirk list in place
      ([remove_card_reader_quirk]),
    - it samples four card-presence GPIO lines ([check_card_presence]) and
      debounces them ([wait_for_card_presence_change]),
    - it authorizes or deauthorizes the card reader ([main]).

    The C heap is a list of characters addressed by integers, the GPIO
    library is a list of replies consumed by the program, and calls to
    [system] are collected in a log.  Time passes in the waits only: a reply
    records for how long the wait blocked, and the events that the source
    reads after a wait (lines 96-98 and 111-113) are discarded as they are
    there. *)

From Stdlib Require Import ZArith Ascii String List Lia Bool.
From stdpp Require Import base list strings.
Import ListNotations.

Local Open Scope Z_scope.

(** ** Characters and C strings *)

Definition NUL : ascii := "000"%char.
Definition COMMA : ascii := ","%char.
Definition NEWLINE : ascii := "010"%char.

(** A string literal of the source, as the characters before its
    terminator. *)
Definition lit (s : string) : list ascii := list_ascii_of_string s.

Definition USB_STORAGE_QUIRKS_PATH : string := "/sys/module/usb_storage/parameters/quirks".
Definition USB_STORAGE_BIND_PATH : string := "/sys/bus/usb/drivers/usb-storage/bind".
Definition CARD_READER_QUIRK : list ascii := lit "058f:6366:i".
Definition CARD_READER_USB_INTERFACE : string := "1-1.4:1.0".
Definition CARD_READER_AUTHORIZED_PATH : string := "/sys/bus/usb/devices/1-1.4/authorized".

(** [size_t] on the 32-bit ARM target: arithmetic wraps modulo 2^32. *)
Definition size_t (z : Z) : Z := z mod 2 ^ 32.

(** ** The heap

    A heap is the list of the characters around one allocated block;
    a pointer is an index into it and [0] is the null pointer.  Index [0]
    holds the character that sits just below the block, so that the block
    returned by [malloc] starts at address [1]. *)

Abbreviation heap := (list ascii).

Definition load (h : heap) (p : Z) : ascii :=
  if p <? 0 then NUL else nth (Z.to_nat p) h NUL.

Definition store (h : heap) (p : Z) (c : ascii) : heap :=
  if p <? 0 then h else <[Z.to_nat p := c]> h.

(** The characters of the C string that starts a list: all of them up to
    the first NUL. *)
Fixpoint cstring (l : list ascii) : list ascii :=
  match l with
  | [] => []
  | c :: l' => if Ascii.eqb c NUL then [] else c :: cstring l'
  end.

Definition string_at (h : heap) (p : Z) : list ascii :=
  cstring (drop (Z.to_nat p) h).

Definition strlen (h : heap) (p : Z) : Z :=
  Z.of_nat (length (string_at h p)).

Fixpoint starts_with (needle hay : list ascii) : bool :=
  match needle, hay with
  | [], _ => true
  | _ :: _, [] => false
  | a :: needle', b :: hay' => Ascii.eqb a b && starts_with needle' hay'
  end.

(** Offset of the first occurrence of [needle] in [hay]. *)
Fixpoint find_first (needle hay : list ascii) : option nat :=
  if starts_with needle hay then Some O
  else match hay with
       | [] => None
       | _ :: hay' => S <$> find_first needle hay'
       end.

(** [strstr(haystack, needle)]: a pointer to the first occurrence of the
    needle in the C string at [p], or [None] for the null pointer. *)
Definition strstr (h : heap) (p : Z) (needle : list ascii) : option Z :=
  (fun off => p + Z.of_nat off) <$> find_first needle (string_at h p).

(** [memmove(dest, src, n)]: the [n] characters at [src] are copied to
    [dest]; the regions may overlap. *)
Definition memmove (h : heap) (dest src n : Z) : heap :=
  take (Z.to_nat dest) h
    ++ take (Z.to_nat n) (drop (Z.to_nat src) h)
    ++ drop (Z.to_nat (dest + n)) h.

(** [malloc(n)]: a block of [n] characters of unspecified content. *)
Definition malloc_block (junk : nat -> ascii) (n : nat) : list ascii :=
  map junk (seq 0 n).

(** [fread] into a buffer at [p]. *)
Definition store_bytes (h : heap) (p : Z) (data : list ascii) : heap :=
  take (Z.to_nat p) h ++ data ++ drop (Z.to_nat p + length data) h.

(** ** The quirk file *)

Record file_system := mk_fs {
  quirks_content : option (list ascii);  (* [None]: fopen "rb" fails *)
  quirks_writable : bool;                (* [false]: fopen "wb" fails *)
  quirks_rewrites : nat                  (* how often the file was rewritten *)
}.

(** ** remove_card_reader_quirk *)

Section QuirkEditor.

(** The entry to remove; the source fixes it to [CARD_READER_QUIRK]. *)
Variable entry : list ascii.

Let entry_len : Z := Z.of_nat (length entry).

(** Lines 162-187: find the entry in the buffer and close the gap. The
    result is the heap after [memmove], or [None] when [strstr] returned
    the null pointer. *)
Definition edit_buffer (h : heap) (quirks bytes_read : Z) : option heap :=
  match strstr h quirks entry with
  | None => None
  | Some pos =>
      let comma_before := (0 <? pos) && Ascii.eqb (load h (pos - 1)) COMMA in
      let comma_after := Ascii.eqb (load h (pos + entry_len)) COMMA in
      let move_dest := pos in
      let move_src := pos + entry_len in
      let move_len := size_t (bytes_read - (pos - quirks) - entry_len) in
      if comma_before then
        Some (memmove h (move_dest - 1) move_src move_len)
      else if comma_after then
        Some (memmove h move_dest (move_src + 1) (size_t (move_len - 1)))
      else
        Some (memmove h move_dest move_src move_len)
  end.

(** Lines 153-159: NUL-terminate the buffer, over its final newline if it
    has one.  The result is the heap and the new [bytes_read]. *)
Definition terminate_buffer (h : heap) (quirks bytes_read : Z) : heap * Z :=
  if Ascii.eqb (load h (quirks + (bytes_read - 1))) NEWLINE
  then (store h (quirks + (bytes_read - 1)) NUL, bytes_read)
  else (store h (quirks + bytes_read) NUL, size_t (bytes_read + 1)).

(** The whole function.  [before] is the character below the block that
    [malloc] returns and [junk] the block's initial content. *)
Definition remove_quirk (before : ascii) (junk : nat -> ascii)
    (fs : file_system) : file_system :=
  let h0 := before :: malloc_block junk 1024 in
  let quirks := 1 in
  match quirks_content fs with
  | None => fs
  | Some content =>
      let data := take 1023 content in
      let h1 := store_bytes h0 quirks data in
      let bytes_read := Z.of_nat (length data) in
      if bytes_read =? 0 then fs
      else
        let '(h2, bytes_read) := terminate_buffer h1 quirks bytes_read in
        match edit_buffer h2 quirks bytes_read with
        | None => fs
        | Some h3 =>
            if quirks_writable fs then
              {| quirks_content :=
                   Some (take (Z.to_nat (strlen h3 quirks))
                           (drop (Z.to_nat quirks) h3));
                 quirks_writable := true;
                 quirks_rewrites := S (quirks_rewrites fs) |}
            else fs
        end
  end.

(** The editor as a function on texts: the buffer holds [text] and its
    terminator, as it does after the file was read. *)
Definition removeEntry (before : ascii) (text : list ascii) : list ascii :=
  let h := before :: text ++ [NUL] in
  match edit_buffer h 1 (size_t (Z.of_nat (length text) + 1)) with
  | None => text
  | Some h' => string_at h' 1
  end.

End QuirkEditor.

Definition remove_card_reader_quirk := remove_quirk CARD_READER_QUIRK.

(** ** check_card_presence *)

Definition NUM_PRESENCE_GPIOS : nat := 4.

Definition SD_PRESENT : Z := Z.shiftl 1 0.
Definition XD_PRESENT : Z := Z.shiftl 1 1.
Definition MS_PRESENT : Z := Z.shiftl 1 2.
Definition CF_PRESENT : Z := Z.shiftl 1 3.

Definition uint8_t (z : Z) : Z := z mod 2 ^ 8.

(** What [gpiod_line_get_value_bulk] answers: its return value and the
    array [values] it fills in. *)
Record bulk_values := mk_values {
  get_value_ret : Z;
  line_values : nat -> Z
}.

Definition check_card_presence (rd : bulk_values) : Z :=
  if negb (get_value_ret rd =? 0) then 0
  else
    fold_left
      (fun retval i =>
         if negb (line_values rd i =? 0)
         then uint8_t (Z.lor retval (Z.shiftl 1 (Z.of_nat i)))
         else retval)
      (seq 0 NUM_PRESENCE_GPIOS) 0.

(** ** wait_for_card_presence_change *)

Record timespec := mk_timespec { tv_sec : Z; tv_nsec : Z }.

Definition timeout : timespec := {| tv_sec := 0; tv_nsec := 500000000 |}.

Definition nanoseconds (t : timespec) : Z := tv_sec t * 1000000000 + tv_nsec t.

(** One wake-up of the daemon: what [gpiod_line_event_wait_bulk] returned,
    for how many nanoseconds it blocked, and what the sensor lines read
    when the daemon samples them next. *)
Record gpio_reply := mk_reply {
  wait_result : Z;
  wait_elapsed : Z;
  sampled : bulk_values
}.

(** [gpiod_line_event_wait_bulk(&gpio_bulk, timeout, &event_bulk)], with
    [None] for the null timeout that waits forever. *)
Definition gpiod_line_event_wait_bulk (t : option timespec) (o : gpio_reply) : Z :=
  wait_result o.

(** The library's contract for a wait with a timeout: it returns [0] only
    once the timeout has expired with no edge on any line. *)
Definition honours (t : timespec) (o : gpio_reply) : Prop :=
  wait_result o = 0 -> nanoseconds t <= wait_elapsed o.

Inductive outcome :=
| Exit (status : Z)
| Pending
| Settled (debounced_presence_flags : Z) (rest : list gpio_reply).

Inductive iteration :=
| Bail (status : Z)
| Continue (bouncy_state : Z)
| Break.

(** The body of the stabilizing loop (lines 105-122), run on the reply to
    its wait. *)
Definition stabilize_step (bouncy_state : Z) (o : gpio_reply) : iteration :=
  let result := gpiod_line_event_wait_bulk (Some timeout) o in
  if result <? 0 then Bail 5
  else if 0 <? result then Continue (check_card_presence (sampled o))
  else if bouncy_state =? check_card_presence (sampled o) then Break
  else Continue bouncy_state.

(** The stabilizing loop runs as long as there are replies; [Pending] is
    the daemon blocked in a wait. *)
Fixpoint stabilize (bouncy_state : Z) (replies : list gpio_reply) : outcome :=
  match replies with
  | [] => Pending
  | o :: replies' =>
      match stabilize_step bouncy_state o with
      | Bail status => Exit status
      | Continue bouncy_state' => stabilize bouncy_state' replies'
      | Break => Settled bouncy_state replies'
      end
  end.

(** The function returns the new [debounced_presence_flags] and the replies
    it has not consumed. *)
Definition wait_for_card_presence_change (replies : list gpio_reply) : outcome :=
  match replies with
  | [] => Pending
  | o :: replies' =>
      let result := gpiod_line_event_wait_bulk None o in
      if result <=? 0 then Exit 4
      else
        let bouncy_state := check_card_presence (sampled o) in
        stabilize bouncy_state replies'
  end.

(** ** main *)

Definition bind_card_reader : string :=
  ("echo " ++ CARD_READER_USB_INTERFACE ++ " > " ++ USB_STORAGE_BIND_PATH
     ++ " 2>/dev/null")%string.

Definition connect_card_reader : string :=
  ("echo 1 > " ++ CARD_READER_AUTHORIZED_PATH)%string.

Definition disconnect_card_reader : string :=
  ("echo 0 > " ++ CARD_READER_AUTHORIZED_PATH)%string.

Inductive ending :=
| Exited (status : Z)
| Blocked
| OutOfFuel.

(** What a run leaves behind: the commands given to [system], in order,
    the last debounced state, and how the run ended. *)
Record run := mk_run {
  commands : list string;
  debounced_presence_flags : Z;
  ended : ending
}.

(** Lines 261-265: the command issued for a debounced state. *)
Definition authorize (presence : Z) : string :=
  if negb (presence =? 0) then connect_card_reader else disconnect_card_reader.

(** The loop of lines 259-266. *)
Fixpoint monitor (fuel : nat) (debounced : Z) (replies : list gpio_reply) : run :=
  match fuel with
  | O => mk_run [] debounced OutOfFuel
  | S fuel' =>
      match wait_for_card_presence_change replies with
      | Exit status => mk_run [] debounced (Exited status)
      | Pending => mk_run [] debounced Blocked
      | Settled debounced' rest =>
          let r := monitor fuel' debounced' rest in
          mk_run (authorize debounced' :: commands r)
                 (debounced_presence_flags r) (ended r)
      end
  end.

Record world := mk_world {
  chip_found : bool;              (* gpiod_chip_open_by_label *)
  get_lines_ret : Z;              (* gpiod_chip_get_lines *)
  request_ret : Z;                (* gpiod_line_request_bulk_both_edges_events_flags *)
  heap_before : ascii;
  heap_junk : nat -> ascii;
  files : file_system;
  initial_values : bulk_values;
  replies : list gpio_reply
}.

Definition main (w : world) : run * file_system :=
  if negb (chip_found w) then (mk_run [] 0 (Exited 1), files w)
  else if negb (get_lines_ret w =? 0) then (mk_run [] 0 (Exited 2), files w)
  else if negb (request_ret w =? 0) then (mk_run [] 0 (Exited 3), files w)
  else
    let fs := remove_card_reader_quirk (heap_before w) (heap_junk w) (files w) in
    let debounced := check_card_presence (initial_values w) in
    let startup :=
      if negb (debounced =? 0) then [bind_card_reader; connect_card_reader]
      else [disconnect_card_reader] in
    let r := monitor (S (length (replies w))) debounced (replies w) in
    (mk_run (startup ++ commands r) (debounced_presence_flags r) (ended r), fs).

(** * The specification's vocabulary *)

(** The deletion policy of the specification, on a text in which the
    entry of length [len] was found at offset [off]: the comma before the
    match goes with it; failing that, the comma after it; failing both,
    the match alone. *)
Definition delete_match (text : list ascii) (off len : nat) : list ascii :=
  let comma_before :=
    match off with
    | O => false
    | S o => bool_decide (text !! o = Some COMMA)
    end in
  let comma_after := bool_decide (text !! (off + len)%nat = Some COMMA) in
  if comma_before then take (off - 1) text ++ drop (off + len) text
  else if comma_after then take off text ++ drop (off + len + 1) text
  else take off text ++ drop (off + len) text.

(** The text that the editor works on: what was read, without its final
    newline if it has one. *)
Definition strip_newline (data : list ascii) : list ascii :=
  match last data with
  | Some c => if Ascii.eqb c NEWLINE then removelast data else data
  | None => data
  end.

(** The text in the buffer when the search starts: the C string in the
    first 1023 characters of the file, without their final newline. *)
Definition text_of (content : list ascii) : list ascii :=
  cstring (strip_newline (take 1023 content)).

(** The entries of a comma-delimited text. *)
Fixpoint entries_of (text : list ascii) : list (list ascii) :=
  match text with
  | [] => [[]]
  | c :: text' =>
      if Ascii.eqb c COMMA then [] :: entries_of text'
      else match entries_of text' with
           | e :: es => (c :: e) :: es
           | [] => [[c]]
           end
  end.

(** A successful read of the four lines. *)
Definition reading (sd xd ms cf : Z) : bulk_values :=
  mk_values 0 (fun i => nth i [sd; xd; ms; cf] 0).

(** A feed of samples that are at least 500 ms apart: every sample arrives
    with an edge, and the wait that follows runs into its timeout with the
    lines still reading the same. *)
Inductive well_separated : list Z -> list gpio_reply -> Prop :=
| ws_nil : well_separated [] []
| ws_cons (edge quiet : gpio_reply) (samples : list Z) (rest : list gpio_reply) :
    0 < wait_result edge ->
    wait_result quiet = 0 ->
    nanoseconds timeout <= wait_elapsed quiet ->
    check_card_presence (sampled quiet) = check_card_presence (sampled edge) ->
    well_separated samples rest ->
    well_separated (check_card_presence (sampled edge) :: samples)
                   (edge :: quiet :: rest).

(** The debounced states that the daemon commits, one per return of
    [wait_for_card_presence_change]. *)
Fixpoint settlings (fuel : nat) (replies : list gpio_reply) : list Z :=
  match fuel with
  | O => []
  | S fuel' =>
      match wait_for_card_presence_change replies with
      | Settled debounced rest => debounced :: settlings fuel' rest
      | _ => []
      end
  end.

(** A reply that times out on a sample other than [d]. *)
Definition unsettled (d : Z) (o : gpio_reply) : Prop :=
  wait_result o = 0 /\ check_card_presence (sampled o) <> d.

(** The comma-delimited text of a list of entries. *)
Fixpoint join_commas (es : list (list ascii)) : list ascii :=
  match es with
  | [] => []
  | e :: es' =>
      match es' with
      | [] => e
      | _ :: _ => e ++ COMMA :: join_commas es'
      end
  end.

(** The text up to an entry that follows the entries [es], and the text
    after an entry that [es] follow. *)
Fixpoint lead (es : list (list ascii)) : list ascii :=
  match es with
  | [] => []
  | e :: es' => e ++ COMMA :: lead es'
  end.

Fixpoint trail (es : list (list ascii)) : list ascii :=
  match es with
  | [] => []
  | e :: es' => COMMA :: e ++ trail es'
  end.

(** * Properties *)

(** ** C strings *)

Lemma eqb_NUL_false c (l : list ascii) : NUL ∉ c :: l -> Ascii.eqb c NUL = false.
Proof.
  intros H. apply Ascii.eqb_neq. intros ->. apply H. left.
Qed.

Lemma cstring_app (s t : list ascii) :
  NUL ∉ s -> cstring (s ++ t) = s ++ cstring t.
Proof.
  induction s as [|c s IH]; intros H; simpl; [reflexivity|].
  rewrite (eqb_NUL_false c s H). f_equal. apply IH.
  intros Hin. apply H. right. exact Hin.
Qed.

Lemma cstring_terminated (s r : list ascii) :
  NUL ∉ s -> cstring (s ++ NUL :: r) = s.
Proof.
  intros H. rewrite cstring_app by exact H. simpl. apply app_nil_r.
Qed.

Lemma cstring_nul_free (l : list ascii) : NUL ∉ cstring l.
Proof.
  induction l as [|c l IH]; simpl.
  - apply not_elem_of_nil.
  - destruct (Ascii.eqb_spec c NUL) as [->|Hc].
    + apply not_elem_of_nil.
    + intros [Heq|Hin]%elem_of_cons; [congruence | exact (IH Hin)].
Qed.

Lemma cstring_subseteq (l : list ascii) : cstring l ⊆ l.
Proof.
  induction l as [|c l IH]; simpl; [done|].
  destruct (Ascii.eqb c NUL); [apply list_subseteq_nil|].
  intros x [->|Hx]%elem_of_cons; [left | right; apply IH, Hx].
Qed.

(** ** Searching *)

Lemma starts_with_app (needle k : list ascii) : starts_with needle (needle ++ k) = true.
Proof.
  induction needle as [|a n IH]; simpl; [reflexivity|].
  rewrite Ascii.eqb_refl. exact IH.
Qed.

Lemma starts_with_inv (needle hay : list ascii) :
  starts_with needle hay = true ->
  hay = needle ++ drop (length needle) hay.
Proof.
  revert hay. induction needle as [|a n IH]; intros [|b hay]; simpl; try done.
  intros [Hab Hn]%andb_true_iff. apply Ascii.eqb_eq in Hab as ->.
  f_equal. apply IH, Hn.
Qed.

(** [find_first] returns an offset at which the needle occurs, and the needle
    does not occur at any smaller offset. *)
Lemma find_first_Some (needle hay : list ascii) (off : nat) :
  find_first needle hay = Some off ->
  hay = take off hay ++ needle ++ drop (off + length needle) hay
  /\ forall j, (j < off)%nat -> starts_with needle (drop j hay) = false.
Proof.
  revert off. induction hay as [|b hay IH]; intros off; simpl.
  - destruct (starts_with needle []) eqn:E; [|done].
    intros [= <-]. split; [|lia].
    apply starts_with_inv in E. simpl in *. rewrite drop_nil in *. exact E.
  - destruct (starts_with needle (b :: hay)) eqn:E.
    + intros [= <-]. split; [|lia]. simpl. apply (starts_with_inv _ _ E).
    + destruct (find_first needle hay) as [o|] eqn:F; [|done].
      simpl. intros [= <-]. destruct (IH o eq_refl) as [H1 H2].
      split.
      * simpl. f_equal. exact H1.
      * intros [|j] Hj; simpl; [exact E | apply H2; lia].
Qed.

Lemma find_first_None (needle hay : list ascii) :
  find_first needle hay = None ->
  forall p q, hay <> p ++ needle ++ q.
Proof.
  induction hay as [|b hay IH]; simpl.
  - destruct (starts_with needle []) eqn:E; [done|].
    intros _ p q Heq. destruct p; simpl in *.
    + rewrite Heq, starts_with_app in E. done.
    + done.
  - destruct (starts_with needle (b :: hay)) eqn:E; [done|].
    destruct (find_first needle hay) eqn:F; [done|].
    intros _ [|c p] q Heq; simpl in *.
    + rewrite Heq, starts_with_app in E. done.
    + injection Heq as _ Heq. exact (IH eq_refl p q Heq).
Qed.

(** A needle that occurs is found. *)
Lemma find_first_substring (needle p q : list ascii) :
  exists off, find_first needle (p ++ needle ++ q) = Some off /\ (off <= length p)%nat.
Proof.
  destruct (find_first needle (p ++ needle ++ q)) as [off|] eqn:F.
  - exists off. split; [reflexivity|].
    destruct (find_first_Some _ _ _ F) as [_ Hmin].
    destruct (le_lt_dec off (length p)) as [?|Hlt]; [done|].
    specialize (Hmin (length p) Hlt).
    rewrite drop_app_length, starts_with_app in Hmin. done.
  - exfalso. exact (find_first_None _ _ F p q eq_refl).
Qed.

(** The occurrence that [find_first] returns lies within the hay stack. *)
Lemma find_first_bound (needle hay : list ascii) (off : nat) :
  find_first needle hay = Some off -> (off + length needle <= length hay)%nat.
Proof.
  revert off. induction hay as [|b hay IH]; intros off; simpl.
  - destruct (starts_with needle []) eqn:E; [|done].
    intros [= <-]. apply starts_with_inv in E. destruct needle; [simpl; lia | done].
  - destruct (starts_with needle (b :: hay)) eqn:E.
    + intros [= <-]. apply starts_with_inv, (f_equal length) in E.
      rewrite length_app in E. simpl in *. lia.
    + destruct (find_first needle hay) as [o|] eqn:F; [|done].
      simpl. intros [= <-]. specialize (IH o eq_refl). lia.
Qed.

(** The hay stack splits around the needle at its first occurrence. *)
Lemma find_first_split (needle hay : list ascii) (off : nat) :
  find_first needle hay = Some off ->
  exists p q, hay = p ++ needle ++ q /\ length p = off
              /\ p = take off hay /\ q = drop (off + length needle) hay.
Proof.
  intros F. destruct (find_first_Some _ _ _ F) as [H _].
  exists (take off hay), (drop (off + length needle) hay).
  split; [exact H|]. split; [|done].
  rewrite length_take. apply Nat.min_l.
  apply find_first_bound in F. lia.
Qed.

(** ** The heap *)

Lemma load_middle (h A T : list ascii) (c : ascii) (z : Z) :
  h = A ++ c :: T -> z = Z.of_nat (length A) -> load h z = c.
Proof.
  intros -> ->. unfold load.
  destruct (Z.ltb_spec (Z.of_nat (length A)) 0) as [?|_]; [lia|].
  rewrite Nat2Z.id. apply nth_middle.
Qed.

Lemma string_at_block (b : ascii) (s r : list ascii) :
  NUL ∉ s -> string_at (b :: s ++ NUL :: r) 1 = s.
Proof.
  intros H. unfold string_at. change (Z.to_nat 1) with 1%nat. simpl.
  rewrite drop_0. apply cstring_terminated, H.
Qed.

(** [memmove] closes a gap [G] by moving the block [M] that follows it. *)
Lemma memmove_close_gap (h A G M T : list ascii) (dest src n : Z) :
  h = A ++ G ++ M ++ T ->
  dest = Z.of_nat (length A) ->
  src = Z.of_nat (length A + length G) ->
  n = Z.of_nat (length M) ->
  memmove h dest src n = A ++ M ++ drop (length M) (G ++ M ++ T).
Proof.
  intros -> -> -> ->. unfold memmove.
  rewrite <- Nat2Z.inj_add, !Nat2Z.id.
  rewrite take_app_length. f_equal.
  rewrite drop_app_add, drop_app_length, take_app_length. f_equal.
  rewrite drop_app_add. reflexivity.
Qed.

Lemma memmove_length (h A G M T : list ascii) :
  h = A ++ G ++ M ++ T ->
  length (A ++ M ++ drop (length M) (G ++ M ++ T)) = length h.
Proof.
  intros ->. rewrite !length_app, length_drop, !length_app. lia.
Qed.

(** Both sides are the same list up to the bracketing of [++]. *)
Ltac same_list := repeat first [rewrite <- app_assoc | progress simpl]; reflexivity.

Lemma size_t_small (z : Z) : 0 <= z < 2 ^ 32 -> size_t z = z.
Proof. apply Z.mod_small. Qed.

(** ** The editor on a buffer that holds a C string *)

Section QuirkEditorFacts.

Variable entry : list ascii.
Hypothesis entry_nul_free : NUL ∉ entry.

(** The deletion policy on a text split around the match. *)
Lemma delete_match_split (p q : list ascii) :
  delete_match (p ++ entry ++ q) (length p) (length entry) =
    match last p, q with
    | Some c, _ =>
        if Ascii.eqb c COMMA then removelast p ++ q
        else match q with
             | d :: q' => if Ascii.eqb d COMMA then p ++ q' else p ++ q
             | [] => p ++ q
             end
    | None, d :: q' => if Ascii.eqb d COMMA then p ++ q' else p ++ q
    | None, [] => p ++ q
    end.
Proof.
  assert (Hdrop : drop (length p + length entry) (p ++ entry ++ q) = q).
  { rewrite drop_app_add, drop_app_length. reflexivity. }
  assert (Htake : take (length p) (p ++ entry ++ q) = p) by apply take_app_length.
  assert (Hafter : forall d q', q = d :: q' ->
            (p ++ entry ++ q) !! (length p + length entry)%nat = Some d
            /\ drop (length p + length entry + 1) (p ++ entry ++ q) = q').
  { intros d q' ->. split.
    - rewrite lookup_app_r by lia. rewrite lookup_app_r by lia.
      replace (length p + length entry - length p - length entry)%nat with O by lia.
      reflexivity.
    - rewrite <- Nat.add_assoc, drop_app_add, drop_app_add. reflexivity. }
  assert (Hnone : q = [] -> (p ++ entry ++ q) !! (length p + length entry)%nat = None).
  { intros ->. apply lookup_ge_None. rewrite !length_app. simpl. lia. }
  unfold delete_match. rewrite Hdrop, Htake.
  assert (Hq : (if bool_decide ((p ++ entry ++ q) !! (length p + length entry)%nat = Some COMMA)
                then p ++ drop (length p + length entry + 1) (p ++ entry ++ q)
                else p ++ q)
               = match q with
                 | d :: q' => if Ascii.eqb d COMMA then p ++ q' else p ++ q
                 | [] => p ++ q
                 end).
  { destruct q as [|d q'].
    - rewrite (Hnone eq_refl). reflexivity.
    - destruct (Hafter d q' eq_refl) as [-> ->].
      destruct (Ascii.eqb_spec d COMMA) as [->|Hd].
      + rewrite bool_decide_eq_true_2 by reflexivity. reflexivity.
      + rewrite bool_decide_eq_false_2 by congruence. reflexivity. }
  destruct p as [|a p0] using rev_ind.
  - change (length (@nil ascii)) with O in *. cbv beta iota zeta.
    change (length (@nil ascii)) with O in Hq. rewrite Hq.
    destruct q; reflexivity.
  - clear IHp0. rewrite last_snoc, removelast_last.
    assert (Hl : length (p0 ++ [a]) = S (length p0))
      by (rewrite length_app; simpl; lia).
    rewrite Hl in *. cbv beta iota zeta.
    assert (Hlk : ((p0 ++ [a]) ++ entry ++ q) !! length p0 = Some a).
    { rewrite <- app_assoc. apply list_lookup_middle. reflexivity. }
    assert (Htk : take (S (length p0) - 1) ((p0 ++ [a]) ++ entry ++ q) = p0).
    { rewrite <- app_assoc. replace (S (length p0) - 1)%nat with (length p0) by lia.
      apply take_app_length. }
    rewrite Hlk, Htk, Hq.
    destruct (Ascii.eqb_spec a COMMA) as [->|Ha].
    + rewrite bool_decide_eq_true_2 by reflexivity. reflexivity.
    + rewrite bool_decide_eq_false_2 by congruence.
      destruct q; reflexivity.
Qed.

Lemma string_at_moved (b : ascii) (s1 s2 r X : list ascii) :
  NUL ∉ s1 -> NUL ∉ s2 ->
  string_at ((b :: s1) ++ (s2 ++ NUL :: r) ++ X) 1 = s1 ++ s2.
Proof.
  intros H1 H2.
  replace ((b :: s1) ++ (s2 ++ NUL :: r) ++ X)
    with (b :: (s1 ++ s2) ++ NUL :: (r ++ X))
    by (simpl; rewrite <- !app_assoc; reflexivity).
  apply string_at_block. rewrite not_elem_of_app. done.
Qed.

(** The buffer holds [p ++ entry ++ q], its terminator and [r1] below
    [bytes_read]; the entry is first found after [p].  Unless the match
    starts the buffer and the character below the buffer is a comma, the
    edit leaves the text that the policy prescribes. *)
Lemma edit_buffer_found (b : ascii) (p q r1 r2 : list ascii) (bytes_read : Z) :
  NUL ∉ p -> NUL ∉ q ->
  find_first entry (p ++ entry ++ q) = Some (length p) ->
  bytes_read = Z.of_nat (length p + length entry + length q + 1 + length r1) ->
  bytes_read < 2 ^ 32 ->
  (p = [] -> b <> COMMA) ->
  exists h',
    edit_buffer entry (b :: p ++ entry ++ q ++ NUL :: r1 ++ r2) 1 bytes_read = Some h'
    /\ string_at h' 1 = delete_match (p ++ entry ++ q) (length p) (length entry)
    /\ length h' = length (b :: p ++ entry ++ q ++ NUL :: r1 ++ r2).
Proof.
  intros Hp Hq F -> Hbound Hb.
  set (h := b :: p ++ entry ++ q ++ NUL :: r1 ++ r2).
  assert (Hs : string_at h 1 = p ++ entry ++ q).
  { unfold h.
    replace (p ++ entry ++ q ++ NUL :: r1 ++ r2)
      with ((p ++ entry ++ q) ++ NUL :: r1 ++ r2)
      by (rewrite <- !app_assoc; reflexivity).
    apply string_at_block. rewrite !not_elem_of_app. done. }
  unfold edit_buffer, strstr. rewrite Hs, F. cbn [fmap option_fmap option_map].
  cbv zeta.
  set (pos := 1 + Z.of_nat (length p)).
  assert (Hpos : (0 <? pos) = true) by (apply Z.ltb_lt; lia).
  assert (Hlen : size_t (Z.of_nat (length p + length entry + length q + 1 + length r1)
                         - (pos - 1) - Z.of_nat (length entry))
                 = Z.of_nat (length q + 1 + length r1)).
  { rewrite size_t_small; lia. }
  assert (Hca : Ascii.eqb (load h (pos + Z.of_nat (length entry))) COMMA
                = match q with d :: _ => Ascii.eqb d COMMA | [] => false end).
  { assert (Hz : pos + Z.of_nat (length entry) = Z.of_nat (length (b :: p ++ entry)))
      by (simpl; rewrite length_app; lia).
    destruct q as [|d q'].
    - rewrite (load_middle h (b :: p ++ entry) (r1 ++ r2) NUL); [reflexivity| |exact Hz].
      subst h. same_list.
    - rewrite (load_middle h (b :: p ++ entry) (q' ++ NUL :: r1 ++ r2) d);
        [reflexivity| |exact Hz].
      subst h. same_list. }
  rewrite Hpos, Hlen, Hca, delete_match_split. cbn [andb].
  clear Hpos Hlen Hca. subst pos.
  destruct p as [|a p0 _] using rev_ind.
  - (* the match starts the buffer: the character below it is read *)
    rewrite (load_middle h [] (entry ++ q ++ NUL :: r1 ++ r2) b) by reflexivity.
    destruct (Ascii.eqb_spec b COMMA) as [Heq|_]; [exact (False_ind _ (Hb eq_refl Heq))|].
    cbn [last]. destruct q as [|d q'].
    + assert (Hh : h = [b] ++ entry ++ (NUL :: r1) ++ r2) by (subst h; same_list).
      eexists. rewrite (memmove_close_gap h _ _ _ _ _ _ _ Hh) by (simpl; lia).
      split; [reflexivity|]. split; [|apply memmove_length, Hh].
      apply (string_at_moved b [] [] r1); apply not_elem_of_nil.
    + destruct (Ascii.eqb_spec d COMMA) as [->|Hd].
      * assert (Hh : h = [b] ++ (entry ++ [COMMA]) ++ (q' ++ NUL :: r1) ++ r2)
          by (subst h; same_list).
        eexists. rewrite (memmove_close_gap h _ _ _ _ _ _ _ Hh).
        -- split; [reflexivity|]. split; [|apply memmove_length, Hh].
           apply (string_at_moved b [] q' r1); [apply not_elem_of_nil|].
           intros Hin. apply Hq. right. exact Hin.
        -- reflexivity.
        -- rewrite length_app. simpl. lia.
        -- rewrite size_t_small; rewrite ?length_app; simpl in *; lia.
      * assert (Hh : h = [b] ++ entry ++ ((d :: q') ++ NUL :: r1) ++ r2)
          by (subst h; same_list).
        eexists. rewrite (memmove_close_gap h _ _ _ _ _ _ _ Hh).
        -- split; [reflexivity|]. split; [|apply memmove_length, Hh].
           apply (string_at_moved b [] (d :: q') r1); [apply not_elem_of_nil|done].
        -- reflexivity.
        -- simpl. lia.
        -- rewrite length_app. simpl. lia.
  - clear Hb. rewrite last_snoc, removelast_last.
    assert (Hp0 : NUL ∉ p0) by (intros Hin; apply Hp, elem_of_app; left; exact Hin).
    assert (Hl : length (p0 ++ [a]) = S (length p0))
      by (rewrite length_app; simpl; lia).
    rewrite (load_middle h (b :: p0) (entry ++ q ++ NUL :: r1 ++ r2) a);
      [ | subst h; same_list | simpl; rewrite Hl; lia ].
    rewrite Hl in *.
    destruct (Ascii.eqb_spec a COMMA) as [->|Ha].
    + assert (Hh : h = (b :: p0) ++ (COMMA :: entry) ++ (q ++ NUL :: r1) ++ r2)
        by (subst h; same_list).
      eexists. rewrite (memmove_close_gap h _ _ _ _ _ _ _ Hh).
      * split; [reflexivity|]. split; [|apply memmove_length, Hh].
        apply (string_at_moved b p0 q r1); done.
      * simpl. lia.
      * simpl. lia.
      * rewrite length_app. simpl. lia.
    + destruct q as [|d q'].
      * assert (Hh : h = (b :: p0 ++ [a]) ++ entry ++ (NUL :: r1) ++ r2)
          by (subst h; same_list).
        eexists. rewrite (memmove_close_gap h _ _ _ _ _ _ _ Hh).
        -- split; [reflexivity|]. split; [|apply memmove_length, Hh].
           apply (string_at_moved b (p0 ++ [a]) [] r1); [done|apply not_elem_of_nil].
        -- simpl. rewrite Hl. lia.
        -- simpl. rewrite Hl. lia.
        -- simpl. lia.
      * destruct (Ascii.eqb_spec d COMMA) as [->|Hd].
        -- assert (Hh : h = (b :: p0 ++ [a]) ++ (entry ++ [COMMA]) ++ (q' ++ NUL :: r1) ++ r2)
             by (subst h; same_list).
           eexists. rewrite (memmove_close_gap h _ _ _ _ _ _ _ Hh).
           ++ split; [reflexivity|]. split; [|apply memmove_length, Hh].
              apply (string_at_moved b (p0 ++ [a]) q' r1); [done|].
              intros Hin. apply Hq. right. exact Hin.
           ++ simpl. rewrite Hl. lia.
           ++ simpl. rewrite Hl, length_app. simpl. lia.
           ++ rewrite size_t_small; rewrite ?length_app; simpl in *; lia.
        -- assert (Hh : h = (b :: p0 ++ [a]) ++ entry ++ ((d :: q') ++ NUL :: r1) ++ r2)
             by (subst h; same_list).
           eexists. rewrite (memmove_close_gap h _ _ _ _ _ _ _ Hh).
           ++ split; [reflexivity|]. split; [|apply memmove_length, Hh].
              apply (string_at_moved b (p0 ++ [a]) (d :: q') r1); done.
           ++ simpl. rewrite Hl. lia.
           ++ simpl. rewrite Hl. lia.
           ++ rewrite length_app. simpl. lia.
Qed.

Lemma find_first_here (hay : list ascii) :
  starts_with entry hay = true -> find_first entry hay = Some O.
Proof. intros H. destruct hay; simpl; rewrite H; reflexivity. Qed.

(** A search in a prefix of a text that does not contain the entry
    fails. *)
Lemma find_first_absent (text t : list ascii) :
  (forall p q, text ++ t <> p ++ entry ++ q) -> find_first entry text = None.
Proof.
  intros Habs. destruct (find_first entry text) as [off|] eqn:F; [|reflexivity].
  destruct (find_first_split _ _ _ F) as (p & q & Heq & _).
  exfalso. apply (Habs p (q ++ t)). rewrite Heq, <- !app_assoc. reflexivity.
Qed.

Lemma cstring_prefix (l : list ascii) : exists t, l = cstring l ++ t.
Proof.
  induction l as [|c l [t IH]]; simpl; [exists []; reflexivity|].
  destruct (Ascii.eqb c NUL); [exists (c :: l); reflexivity|].
  exists t. simpl. f_equal. exact IH.
Qed.

(** A list is a C string, and what follows its first NUL if it has one. *)
Lemma cstring_split (l : list ascii) :
  l = cstring l \/ exists t, l = cstring l ++ NUL :: t.
Proof.
  induction l as [|c l IH]; simpl; [left; reflexivity|].
  destruct (Ascii.eqb_spec c NUL) as [->|_]; [right; exists l; reflexivity|].
  destruct IH as [IH|[t IH]]; [left | right; exists t]; simpl; f_equal; exact IH.
Qed.

Lemma removeEntry_found (before : ascii) (text : list ascii) (off : nat) :
  NUL ∉ text ->
  (length text <= 1023)%nat ->
  find_first entry text = Some off ->
  (off = O -> before <> COMMA) ->
  removeEntry entry before text = delete_match text off (length entry).
Proof.
  intros Htext Hlen F Hb.
  destruct (find_first_split _ _ _ F) as (p & q & Heq & Hoff & _).
  assert (Hp : NUL ∉ p) by (intros Hin; apply Htext; rewrite Heq, !elem_of_app; auto).
  assert (Hq : NUL ∉ q) by (intros Hin; apply Htext; rewrite Heq, !elem_of_app; auto).
  subst text off.
  destruct (edit_buffer_found before p q [] []
              (size_t (Z.of_nat (length (p ++ entry ++ q)) + 1)) Hp Hq F)
    as (h' & Hedit & Hstr & _).
  - rewrite size_t_small; rewrite !length_app in *; simpl; lia.
  - rewrite size_t_small; rewrite !length_app in *; simpl; lia.
  - intros ->. apply Hb. reflexivity.
  - unfold removeEntry.
    replace (before :: (p ++ entry ++ q) ++ [NUL])
      with (before :: p ++ entry ++ q ++ NUL :: [] ++ []) by same_list.
    rewrite Hedit. exact Hstr.
Qed.

Lemma removeEntry_absent (before : ascii) (text : list ascii) :
  (forall p q, text <> p ++ entry ++ q) ->
  removeEntry entry before text = text.
Proof.
  intros Habs. unfold removeEntry, edit_buffer, strstr.
  destruct (cstring_prefix (text ++ [NUL])) as [t Ht].
  assert (F : find_first entry (string_at (before :: text ++ [NUL]) 1) = None).
  { unfold string_at. change (Z.to_nat 1) with 1%nat. simpl. rewrite drop_0.
    destruct (find_first entry (cstring (text ++ [NUL]))) as [off|] eqn:F; [|reflexivity].
    exfalso. destruct (find_first_split _ _ _ F) as (p & q & Heq & Hoff & _).
    rewrite Heq in Ht.
    (* the C string is a prefix of the text *)
    assert (Hpre : exists u, text = (p ++ entry ++ q) ++ u).
    { destruct t as [|c t] using rev_ind.
      - exfalso. rewrite app_nil_r in Ht.
        apply (cstring_nul_free (text ++ [NUL])). rewrite Heq, <- Ht.
        apply elem_of_app. right. left.
      - exists t. rewrite app_assoc in Ht. apply app_inj_tail in Ht. tauto. }
    destruct Hpre as [u Hu]. apply (Habs p (q ++ u)).
    rewrite Hu, <- !app_assoc. reflexivity. }
  rewrite F. reflexivity.
Qed.

(** *** The buffer after the file was read *)

Lemma store_middle (h A T : list ascii) (x c : ascii) (z : Z) :
  h = A ++ x :: T -> z = Z.of_nat (length A) -> store h z c = A ++ c :: T.
Proof.
  intros -> ->. unfold store.
  destruct (Z.ltb_spec (Z.of_nat (length A)) 0) as [?|_]; [lia|].
  rewrite Nat2Z.id, insert_app_r_alt by lia.
  rewrite Nat.sub_diag. reflexivity.
Qed.

Lemma malloc_block_length (junk : nat -> ascii) (n : nat) :
  length (malloc_block junk n) = n.
Proof. unfold malloc_block. rewrite length_map, length_seq. reflexivity. Qed.

Lemma strip_newline_length (data : list ascii) :
  (length (strip_newline data) <= length data)%nat.
Proof.
  unfold strip_newline. destruct data as [|c body _] using rev_ind; [done|].
  rewrite last_snoc. destruct (Ascii.eqb c NEWLINE); [|done].
  rewrite removelast_last, length_app. lia.
Qed.

Lemma read_buffer (before : ascii) (junk : nat -> ascii) (data : list ascii) :
  data <> [] -> (length data <= 1023)%nat ->
  exists J,
    terminate_buffer (store_bytes (before :: malloc_block junk 1024) 1 data) 1
      (Z.of_nat (length data))
    = (before :: strip_newline data ++ NUL :: J,
       Z.of_nat (length (strip_newline data) + 1)).
Proof.
  intros Hne Hlen.
  generalize (malloc_block_length junk 1024).
  generalize (malloc_block junk 1024). intros block Hblock.
  assert (Hh1 : store_bytes (before :: block) 1 data
                = before :: data ++ drop (length data) block).
  { unfold store_bytes. change (Z.to_nat 1) with 1%nat. reflexivity. }
  rewrite Hh1. unfold terminate_buffer, strip_newline.
  destruct data as [|c body _] using rev_ind; [done|]. clear Hne.
  rewrite last_snoc, length_app in *. simpl in Hlen.
  set (J := drop (length body + length [c]) block).
  assert (Hshape : before :: (body ++ [c]) ++ J = (before :: body) ++ c :: J) by same_list.
  rewrite (load_middle _ _ _ _ _ Hshape) by (simpl; lia).
  destruct (Ascii.eqb c NEWLINE).
  - exists J. rewrite (store_middle _ _ _ _ _ _ Hshape) by (simpl; lia).
    rewrite removelast_last. reflexivity.
  - destruct J as [|x T] eqn:HJ.
    + exfalso. apply (f_equal length) in HJ. unfold J in HJ.
      rewrite length_drop in HJ. simpl in HJ. lia.
    + exists T.
      rewrite (store_middle (before :: (body ++ [c]) ++ x :: T)
                 (before :: body ++ [c]) T x NUL);
        [ | same_list | simpl; rewrite length_app; simpl; lia ].
      rewrite size_t_small by (simpl; lia).
      f_equal. rewrite length_app. simpl. lia.
Qed.

Lemma take_cstring (l : list ascii) : take (length (cstring l)) l = cstring l.
Proof.
  destruct (cstring_prefix l) as [t Ht]. rewrite Ht at 2. apply take_app_length.
Qed.

(** What [fwrite] writes is the C string in the buffer. *)
Lemma written_string (h : heap) :
  take (Z.to_nat (strlen h 1)) (drop (Z.to_nat 1) h) = string_at h 1.
Proof.
  unfold strlen, string_at. rewrite Nat2Z.id. apply take_cstring.
Qed.

Lemma remove_quirk_absent (before : ascii) (junk : nat -> ascii) (fs : file_system)
    (content : list ascii) :
  quirks_content fs = Some content ->
  find_first entry (text_of content) = None ->
  remove_quirk entry before junk fs = fs.
Proof.
  intros Hc F. unfold remove_quirk. rewrite Hc. cbv zeta.
  destruct (Z.eqb_spec (Z.of_nat (length (take 1023 content))) 0) as [|Hne]; [reflexivity|].
  destruct (read_buffer before junk (take 1023 content)) as [J HJ].
  - intros E. rewrite E in Hne. done.
  - rewrite length_take. lia.
  - rewrite HJ. unfold edit_buffer, strstr.
    replace (string_at (before :: strip_newline (take 1023 content) ++ NUL :: J) 1)
      with (text_of content).
    + rewrite F. reflexivity.
    + unfold string_at, text_of. change (Z.to_nat 1) with 1%nat. simpl. rewrite drop_0.
      destruct (cstring_split (strip_newline (take 1023 content))) as [E|[t E]].
      * rewrite E at 2. rewrite cstring_terminated by apply cstring_nul_free.
        reflexivity.
      * rewrite E at 2. rewrite <- app_assoc. simpl.
        rewrite cstring_terminated by apply cstring_nul_free. reflexivity.
Qed.

Lemma remove_quirk_found (before : ascii) (junk : nat -> ascii) (fs : file_system)
    (content : list ascii) (off : nat) :
  quirks_content fs = Some content ->
  content <> [] ->
  find_first entry (text_of content) = Some off ->
  (off = O -> before <> COMMA) ->
  remove_quirk entry before junk fs =
    if quirks_writable fs then
      {| quirks_content := Some (delete_match (text_of content) off (length entry));
         quirks_writable := true;
         quirks_rewrites := S (quirks_rewrites fs) |}
    else fs.
Proof.
  intros Hc Hne F Hb. unfold remove_quirk. rewrite Hc. cbv zeta.
  assert (Hdata : take 1023 content <> []) by (destruct content; done).
  destruct (Z.eqb_spec (Z.of_nat (length (take 1023 content))) 0) as [E|_].
  { destruct (take 1023 content); done. }
  destruct (read_buffer before junk (take 1023 content) Hdata) as [J HJ].
  { rewrite length_take. lia. }
  rewrite HJ.
  pose proof (strip_newline_length (take 1023 content)) as Hraw.
  rewrite length_take in Hraw.
  destruct (find_first_split _ _ _ F) as (p & q & Heq & Hoff & _).
  assert (Hnul : (NUL ∉ p) /\ (NUL ∉ q)).
  { split; intros Hin; apply (cstring_nul_free (strip_newline (take 1023 content)));
      fold (text_of content); rewrite Heq, !elem_of_app; auto. }
  destruct Hnul as [Hp Hq]. rewrite Heq in F. subst off.
  assert (Hshape : exists r1,
             strip_newline (take 1023 content) ++ NUL :: J
             = p ++ entry ++ q ++ NUL :: r1 ++ J
             /\ (length (strip_newline (take 1023 content)) + 1
                 = length p + length entry + length q + 1 + length r1)%nat).
  { unfold text_of in Heq.
    destruct (cstring_split (strip_newline (take 1023 content))) as [E|[t E]].
    - exists []. rewrite E, Heq, !length_app. split; [same_list|simpl; lia].
    - exists (t ++ [NUL]). rewrite E, Heq, !length_app. split; [same_list|].
      simpl. lia. }
  destruct Hshape as (r1 & Hshape & Hsize).
  rewrite Hshape, Hsize.
  destruct (edit_buffer_found before p q r1 J _ Hp Hq F eq_refl) as (h' & Hedit & Hstr & _).
  - lia.
  - intros ->. apply Hb. reflexivity.
  - rewrite Hedit, written_string, Hstr, Heq. reflexivity.
Qed.

End QuirkEditorFacts.

Lemma strip_newline_prefix (data : list ascii) : exists t, data = strip_newline data ++ t.
Proof.
  unfold strip_newline. destruct data as [|c body _] using rev_ind.
  - exists []. reflexivity.
  - rewrite last_snoc. destruct (Ascii.eqb c NEWLINE).
    + exists [c]. rewrite removelast_last. reflexivity.
    + exists []. rewrite app_nil_r. reflexivity.
Qed.

Lemma text_of_prefix (content : list ascii) : exists t, content = text_of content ++ t.
Proof.
  unfold text_of.
  destruct (cstring_prefix (strip_newline (take 1023 content))) as [t1 H1].
  destruct (strip_newline_prefix (take 1023 content)) as [t2 H2].
  exists (t1 ++ t2 ++ drop 1023 content).
  rewrite <- (take_drop 1023 content) at 1. rewrite H2 at 1. rewrite H1 at 1.
  rewrite <- !app_assoc. reflexivity.
Qed.

Lemma delete_match_subseteq (text : list ascii) (off len : nat) :
  delete_match text off len ⊆ text.
Proof.
  unfold delete_match. intros x.
  repeat match goal with |- context [if ?b then _ else _] => destruct b end;
    intros [Hx|Hx]%elem_of_app;
    first [ exact (subseteq_take _ _ _ Hx) | exact (subseteq_drop _ _ _ Hx) ].
Qed.

(** ** The editor and the file *)

Lemma cstring_id (text : list ascii) : NUL ∉ text -> cstring text = text.
Proof.
  intros H. rewrite <- (app_nil_r text) at 1.
  rewrite cstring_app by exact H. apply app_nil_r.
Qed.

Lemma strip_newline_subseteq (data : list ascii) : strip_newline data ⊆ data.
Proof.
  destruct (strip_newline_prefix data) as [t Ht]. rewrite Ht at 2.
  intros x Hx. apply elem_of_app. left. exact Hx.
Qed.

(** What [remove_quirk] writes to the file is what [removeEntry] returns on
    the text of the file. *)
Lemma remove_quirk_writes_removeEntry (entry content : list ascii) (before : ascii)
    (junk : nat -> ascii) (fs : file_system) (off : nat) :
  NUL ∉ content -> content <> [] -> (length content <= 1023)%nat ->
  quirks_content fs = Some content ->
  quirks_writable fs = true ->
  find_first entry (strip_newline content) = Some off ->
  (off = O -> before <> COMMA) ->
  quirks_content (remove_quirk entry before junk fs)
  = Some (removeEntry entry before (strip_newline content)).
Proof.
  intros Hnul Hne Hlen Hc Hw F Hb.
  assert (Hstrip : NUL ∉ strip_newline content).
  { intros Hin. apply Hnul, strip_newline_subseteq, Hin. }
  assert (Htext : text_of content = strip_newline content).
  { unfold text_of. rewrite take_ge by exact Hlen. apply cstring_id, Hstrip. }
  assert (Hentry : NUL ∉ entry).
  { destruct (find_first_split _ _ _ F) as (p & q & Heq & _).
    intros Hin. apply Hstrip. rewrite Heq, !elem_of_app. auto. }
  rewrite (remove_quirk_found entry Hentry before junk fs content off Hc Hne);
    [ | rewrite Htext; exact F | exact Hb ].
  rewrite Hw, Htext. simpl. f_equal. symmetry.
  apply removeEntry_found; try assumption.
  pose proof (strip_newline_length content). lia.
Qed.

(** The cases listed in the specification, with a zero byte below the
    buffer. *)
Example removeEntry_sole :
  removeEntry CARD_READER_QUIRK NUL (lit "058f:6366:i") = lit "".
Proof. vm_compute. reflexivity. Qed.

Example removeEntry_middle :
  removeEntry CARD_READER_QUIRK NUL (lit "a,058f:6366:i,b") = lit "a,b".
Proof. vm_compute. reflexivity. Qed.

Example removeEntry_first :
  removeEntry CARD_READER_QUIRK NUL (lit "058f:6366:i,b") = lit "b".
Proof. vm_compute. reflexivity. Qed.

Example removeEntry_last :
  removeEntry CARD_READER_QUIRK NUL (lit "a,058f:6366:i") = lit "a".
Proof. vm_compute. reflexivity. Qed.

Example removeEntry_none :
  removeEntry (lit "zzz") NUL (lit "a,b,c") = lit "a,b,c".
Proof. vm_compute. reflexivity. Qed.

(** With a comma below the buffer the source takes it for the comma before
    a match that starts the buffer: the sole entry is then left in place. *)
Example removeEntry_sole_after_comma :
  removeEntry CARD_READER_QUIRK COMMA (lit "058f:6366:i") = lit "058f:6366:i".
Proof. vm_compute. reflexivity. Qed.

(** ** Lists of entries *)

Lemma join_commas_cons (e e' : list ascii) (es : list (list ascii)) :
  join_commas (e :: e' :: es) = e ++ COMMA :: join_commas (e' :: es).
Proof. reflexivity. Qed.

Lemma join_commas_trail (e : list ascii) (es : list (list ascii)) :
  join_commas (e :: es) = e ++ trail es.
Proof.
  revert e. induction es as [|e' es IH]; intros e.
  - simpl. rewrite app_nil_r. reflexivity.
  - rewrite join_commas_cons, IH. reflexivity.
Qed.

Lemma join_commas_split (es1 es2 : list (list ascii)) (entry : list ascii) :
  join_commas (es1 ++ entry :: es2) = lead es1 ++ entry ++ trail es2.
Proof.
  induction es1 as [|e es1 IH].
  - apply join_commas_trail.
  - destruct es1 as [|e' es1].
    + simpl app at 1. rewrite join_commas_cons, join_commas_trail.
      simpl. rewrite <- app_assoc. reflexivity.
    + change ((e :: e' :: es1) ++ entry :: es2)
        with (e :: e' :: (es1 ++ entry :: es2)).
      rewrite join_commas_cons.
      change (e' :: es1 ++ entry :: es2) with ((e' :: es1) ++ entry :: es2).
      rewrite IH. cbn [lead]. same_list.
Qed.

Lemma lead_join_commas (e : list ascii) (es : list (list ascii)) :
  lead (e :: es) = join_commas (e :: es) ++ [COMMA].
Proof.
  revert e. induction es as [|e' es IH]; intros e; [reflexivity|].
  rewrite join_commas_cons. cbn [lead] in *. rewrite IH. same_list.
Qed.

Lemma join_commas_app (e : list ascii) (es1 es2 : list (list ascii)) :
  join_commas (e :: es1) ++ trail es2 = join_commas ((e :: es1) ++ es2).
Proof.
  revert e. induction es1 as [|e' es1 IH]; intros e.
  - simpl app. rewrite join_commas_trail. reflexivity.
  - change ((e :: e' :: es1) ++ es2) with (e :: ((e' :: es1) ++ es2)).
    rewrite join_commas_cons. simpl app at 3. rewrite join_commas_cons.
    change (e' :: es1 ++ es2) with ((e' :: es1) ++ es2).
    rewrite <- IH. same_list.
Qed.

Lemma join_commas_nul_free (es : list (list ascii)) :
  Forall (fun e => NUL ∉ e) es -> NUL ∉ join_commas es.
Proof.
  induction 1 as [|e es He Hes IH]; [apply not_elem_of_nil|].
  rewrite join_commas_trail. destruct es as [|e' es]; simpl.
  - rewrite app_nil_r. exact He.
  - rewrite <- join_commas_trail.
    rewrite elem_of_app, elem_of_cons. intros [H|[H|H]]; [auto|discriminate H|auto].
Qed.

(** A word without commas that starts a text does so before the first comma
    of the text. *)
Lemma starts_with_comma_free (needle e t : list ascii) :
  COMMA ∉ needle ->
  starts_with needle (e ++ COMMA :: t) = true ->
  exists k, e = needle ++ k.
Proof.
  revert e. induction needle as [|a n IH]; intros e Hn H.
  - exists e. reflexivity.
  - destruct e as [|c e]; simpl in H; apply andb_true_iff in H as [Ha H].
    + apply Ascii.eqb_eq in Ha as ->. exfalso. apply Hn. left.
    + apply Ascii.eqb_eq in Ha as ->.
      destruct (IH e) as [k ->]; [|exact H|exists k; reflexivity].
      intros Hin. apply Hn. right. exact Hin.
Qed.

(** The search passes over an entry that does not contain the needle. *)
Lemma find_first_skip_entry (needle e t : list ascii) :
  COMMA ∉ needle ->
  (forall p q, e <> p ++ needle ++ q) ->
  find_first needle (e ++ COMMA :: t)
  = (fun off => length e + 1 + off)%nat <$> find_first needle t.
Proof.
  intros Hn. induction e as [|c e IH]; intros Habs.
  - assert (E : starts_with needle ([] ++ COMMA :: t) = false).
    { destruct (starts_with needle ([] ++ COMMA :: t)) eqn:E; [|reflexivity].
      destruct (starts_with_comma_free _ _ _ Hn E) as [k Hk].
      destruct needle; [|discriminate Hk]. exfalso. apply (Habs [] []). reflexivity. }
    simpl in *. rewrite E. destruct (find_first needle t); reflexivity.
  - assert (E : starts_with needle ((c :: e) ++ COMMA :: t) = false).
    { destruct (starts_with needle ((c :: e) ++ COMMA :: t)) eqn:E; [|reflexivity].
      destruct (starts_with_comma_free _ _ _ Hn E) as [k Hk].
      exfalso. apply (Habs [] k). exact Hk. }
    change (find_first needle ((c :: e) ++ COMMA :: t))
      with (if starts_with needle ((c :: e) ++ COMMA :: t) then Some O
            else S <$> find_first needle (e ++ COMMA :: t)).
    rewrite E, IH.
    + destruct (find_first needle t); reflexivity.
    + intros p q Heq. apply (Habs (c :: p) q). rewrite Heq. reflexivity.
Qed.

Lemma find_first_entry (entry : list ascii) (es1 es2 : list (list ascii)) :
  COMMA ∉ entry ->
  Forall (fun e => forall p q, e <> p ++ entry ++ q) es1 ->
  find_first entry (lead es1 ++ entry ++ trail es2) = Some (length (lead es1)).
Proof.
  intros Hentry. induction 1 as [|e es1 He Hes IH].
  - simpl. apply find_first_here, starts_with_app.
  - cbn [lead]. rewrite <- app_assoc. simpl app at 2.
    rewrite (find_first_skip_entry entry e _ Hentry He), IH.
    simpl. rewrite length_app. simpl. f_equal. lia.
Qed.

(** When the first occurrence of the entry is an entry of the list (no entry
    before it contains it), the editor returns the text of the other
    entries, unchanged and in their order. *)
Lemma removeEntry_whole_entry (entry : list ascii) (before : ascii)
    (es1 es2 : list (list ascii)) :
  COMMA ∉ entry ->
  Forall (fun e => NUL ∉ e) (es1 ++ entry :: es2) ->
  Forall (fun e => forall p q, e <> p ++ entry ++ q) es1 ->
  (length (join_commas (es1 ++ entry :: es2)) <= 1023)%nat ->
  (es1 = [] -> before <> COMMA) ->
  removeEntry entry before (join_commas (es1 ++ entry :: es2))
  = join_commas (es1 ++ es2).
Proof.
  intros Hcomma Hnul Habs Hlen Hb.
  assert (Hentry : NUL ∉ entry).
  { rewrite Forall_app, Forall_cons in Hnul. tauto. }
  pose proof (find_first_entry entry es1 es2 Hcomma Habs) as F.
  rewrite <- join_commas_split in F.
  rewrite (removeEntry_found entry Hentry before _ _ (join_commas_nul_free _ Hnul) Hlen F).
  - rewrite join_commas_split, delete_match_split.
    destruct es1 as [|e es1].
    + simpl. destruct es2 as [|e2 es2]; [reflexivity|].
      cbn [trail]. rewrite Ascii.eqb_refl. rewrite join_commas_trail. reflexivity.
    + rewrite lead_join_commas, last_snoc, removelast_last, Ascii.eqb_refl.
      apply join_commas_app.
  - intros H0. apply Hb. destruct es1 as [|e es1]; [reflexivity|].
    exfalso. cbn [lead] in H0. rewrite length_app in H0. simpl in H0. lia.
Qed.

(** The entries of a comma-delimited text are the entries it was made
    of. *)
Lemma entries_of_word (e : list ascii) :
  COMMA ∉ e -> entries_of e = [e].
Proof.
  induction e as [|c e IH]; intros H; [reflexivity|]. simpl.
  destruct (Ascii.eqb_spec c COMMA) as [->|_]; [exfalso; apply H; left|].
  rewrite IH; [reflexivity|]. intros Hin. apply H. right. exact Hin.
Qed.

Lemma entries_of_cons (e t : list ascii) :
  COMMA ∉ e -> entries_of (e ++ COMMA :: t) = e :: entries_of t.
Proof.
  induction e as [|c e IH]; intros H; simpl.
  - reflexivity.
  - destruct (Ascii.eqb_spec c COMMA) as [->|_]; [exfalso; apply H; left|].
    rewrite IH; [reflexivity|]. intros Hin. apply H. right. exact Hin.
Qed.

Lemma entries_of_join_commas (e : list ascii) (es : list (list ascii)) :
  Forall (fun e => COMMA ∉ e) (e :: es) ->
  entries_of (join_commas (e :: es)) = e :: es.
Proof.
  revert e. induction es as [|e' es IH]; intros e H.
  - apply entries_of_word. inversion H; assumption.
  - rewrite join_commas_cons. inversion H as [|? ? He Hes]; subst.
    rewrite entries_of_cons by exact He. f_equal. apply IH, Hes.
Qed.

(** A decidable fact about concrete texts, by evaluation. *)
Ltac by_computation := apply (bool_decide_unpack _); vm_compute; exact I.

(** * The claims about the quirk list editor *)

(** C1. When the entry occurs in the text, [removeEntry] deletes by the
    tie-break policy [delete_match] at the first occurrence: the match and
    the comma before it; else the match and the comma after it; else the
    match alone, so that a text that is just the entry becomes empty; and
    removing "058f:6366:i" from "058f:6366:i,b" leaves "b".  For a match that
    starts the buffer the source reads the character below the buffer
    ([pos > 0] holds for every pointer), which must not be a comma. *)
Theorem removeEntry_deletion_policy :
  (forall (entry text : list ascii) (before : ascii),
      NUL ∉ text -> (length text <= 1023)%nat ->
      (exists p q, text = p ++ entry ++ q) ->
      exists off,
        find_first entry text = Some off
        /\ text = take off text ++ entry ++ drop (off + length entry) text
        /\ ((off = O -> before <> COMMA) ->
            removeEntry entry before text = delete_match text off (length entry)))
  /\ (forall (entry : list ascii) (before : ascii),
        NUL ∉ entry -> (length entry <= 1023)%nat -> before <> COMMA ->
        removeEntry entry before entry = [])
  /\ (forall before : ascii,
        removeEntry CARD_READER_QUIRK before (lit "058f:6366:i,b") = lit "b").
Proof.
  split; [|split].
  - intros entry text before Htext Hlen (p & q & Heq).
    assert (Hentry : NUL ∉ entry).
    { intros Hin. apply Htext. rewrite Heq, !elem_of_app. auto. }
    destruct (find_first_substring entry p q) as (off & F & _).
    rewrite <- Heq in F. exists off. split; [exact F|]. split.
    + apply (find_first_Some _ _ _ F).
    + intros Hb. apply removeEntry_found; assumption.
  - intros entry before Hentry Hlen Hb.
    rewrite (removeEntry_found entry Hentry before entry O Hentry Hlen).
    + unfold delete_match. simpl.
      rewrite bool_decide_eq_false_2.
      * rewrite drop_all. reflexivity.
      * rewrite lookup_ge_None_2 by lia. discriminate.
    + apply find_first_here. rewrite <- (app_nil_r entry) at 2. apply starts_with_app.
    + intros _. exact Hb.
  - intros before. destruct (Ascii.eqb_spec before COMMA) as [->|Hb].
    + vm_compute. reflexivity.
    + rewrite (removeEntry_found CARD_READER_QUIRK) with (off := O).
      * vm_compute. reflexivity.
      * by_computation.
      * by_computation.
      * vm_compute. lia.
      * vm_compute. reflexivity.
      * intros _. exact Hb.
Qed.

Lemma removeEntry_deletion_policy_witness :
  removeEntry CARD_READER_QUIRK NUL (lit "a,058f:6366:i,b") = lit "a,b".
Proof.
  destruct (proj1 removeEntry_deletion_policy CARD_READER_QUIRK
              (lit "a,058f:6366:i,b") NUL) as (off & F & _ & H).
  - by_computation.
  - vm_compute. lia.
  - exists (lit "a,"), (lit ",b"). reflexivity.
  - vm_compute in F. injection F as <-.
    rewrite H; [reflexivity | intros; discriminate].
Defined.

(** C6. When the entry is not a substring of the text, [removeEntry]
    returns the text unchanged; and when it is not a substring of the file's
    content, [remove_quirk] leaves the file system as it was: the content is
    untouched and the file is not rewritten. *)
Theorem removeEntry_absent_unchanged :
  (forall (entry text : list ascii) (before : ascii),
      (forall p q, text <> p ++ entry ++ q) ->
      removeEntry entry before text = text)
  /\ (forall (entry content : list ascii) (before : ascii) (junk : nat -> ascii)
             (fs : file_system),
        quirks_content fs = Some content ->
        (forall p q, content <> p ++ entry ++ q) ->
        remove_quirk entry before junk fs = fs).
Proof.
  split.
  - intros entry text before Habs. apply removeEntry_absent, Habs.
  - intros entry content before junk fs Hc Habs.
    apply (remove_quirk_absent entry before junk fs content Hc).
    destruct (text_of_prefix content) as [t Ht].
    apply (find_first_absent entry _ t). rewrite <- Ht. exact Habs.
Qed.

Lemma removeEntry_absent_unchanged_witness :
  removeEntry (lit "zzz") NUL (lit "a,b,c") = lit "a,b,c"
  /\ remove_quirk CARD_READER_QUIRK NUL (fun _ => NUL) (mk_fs (Some (lit "a,b,c")) true 0)
     = mk_fs (Some (lit "a,b,c")) true 0.
Proof.
  split.
  - apply (proj1 removeEntry_absent_unchanged).
    apply find_first_None. vm_compute. reflexivity.
  - apply (proj2 removeEntry_absent_unchanged CARD_READER_QUIRK (lit "a,b,c")).
    + reflexivity.
    + apply find_first_None. vm_compute. reflexivity.
Defined.

(** C9 as stated fails on a file that ends with two newlines: only the last
    one is stripped, and the rewritten file ends with the other. *)
Lemma rewritten_file_ends_with_newline :
  last (lit "a,058f:6366:i" ++ [NEWLINE; NEWLINE]) = Some NEWLINE
  /\ find_first CARD_READER_QUIRK
       (text_of (lit "a,058f:6366:i" ++ [NEWLINE; NEWLINE])) = Some 2%nat
  /\ remove_card_reader_quirk NUL (fun _ => NUL)
       (mk_fs (Some (lit "a,058f:6366:i" ++ [NEWLINE; NEWLINE])) true 0)
     = mk_fs (Some (lit "a" ++ [NEWLINE])) true 1
  /\ last (lit "a" ++ [NEWLINE]) = Some NEWLINE.
Proof. vm_compute. repeat split; reflexivity. Qed.

(** C9, amended. When a file of at most 1023 characters ends with a newline
    and the entry is found in what precedes it, the editor works on the
    content without that one newline and writes the edited text back
    without restoring it; if no other newline precedes it, the rewritten
    file holds no newline at all. *)
Theorem rewritten_file_drops_final_newline
    (entry body : list ascii) (before : ascii) (junk : nat -> ascii)
    (fs : file_system) (off : nat) :
  NUL ∉ entry ->
  quirks_content fs = Some (body ++ [NEWLINE]) ->
  quirks_writable fs = true ->
  (length body <= 1022)%nat ->
  find_first entry (cstring body) = Some off ->
  (off = O -> before <> COMMA) ->
  text_of (body ++ [NEWLINE]) = cstring body
  /\ remove_quirk entry before junk fs =
       {| quirks_content := Some (delete_match (cstring body) off (length entry));
          quirks_writable := true;
          quirks_rewrites := S (quirks_rewrites fs) |}
  /\ (NEWLINE ∉ body -> NEWLINE ∉ delete_match (cstring body) off (length entry)).
Proof.
  intros Hentry Hc Hw Hlen F Hb.
  assert (Htext : text_of (body ++ [NEWLINE]) = cstring body).
  { unfold text_of. rewrite take_ge by (rewrite length_app; simpl; lia).
    unfold strip_newline. rewrite last_snoc, removelast_last. reflexivity. }
  split; [exact Htext|]. split.
  - rewrite (remove_quirk_found entry Hentry before junk fs (body ++ [NEWLINE]) off Hc).
    + rewrite Hw, Htext. reflexivity.
    + destruct body; done.
    + rewrite Htext. exact F.
    + exact Hb.
  - intros Hnl Hin. apply Hnl.
    apply cstring_subseteq, (delete_match_subseteq _ _ _ _ Hin).
Qed.

Lemma rewritten_file_drops_final_newline_witness :
  remove_quirk CARD_READER_QUIRK NUL (fun _ => NUL)
    (mk_fs (Some (lit "a,058f:6366:i" ++ [NEWLINE])) true 0)
  = mk_fs (Some (lit "a")) true 1.
Proof.
  destruct (rewritten_file_drops_final_newline CARD_READER_QUIRK (lit "a,058f:6366:i")
              NUL (fun _ => NUL) (mk_fs (Some (lit "a,058f:6366:i" ++ [NEWLINE])) true 0)
              2%nat) as (_ & H & _).
  - by_computation.
  - reflexivity.
  - reflexivity.
  - vm_compute. lia.
  - vm_compute. reflexivity.
  - intros; discriminate.
  - rewrite H. vm_compute. reflexivity.
Defined.

(** C2 at a file in which the quirk of the card reader is the beginning of
    another entry.  The file "abcd:1234:u,058f:6366:iu" lists two entries,
    neither of them "058f:6366:i".  The editor finds "058f:6366:i" inside the
    second one, removes it with the comma before it, and rewrites the file
    to "abcd:1234:uu": the first entry is not left as it was. *)
Theorem removal_inside_another_entry (before : ascii) (junk : nat -> ascii) :
  entries_of (lit "abcd:1234:u,058f:6366:iu") = [lit "abcd:1234:u"; lit "058f:6366:iu"]
  /\ remove_card_reader_quirk before junk
       (mk_fs (Some (lit "abcd:1234:u,058f:6366:iu")) true 0)
     = mk_fs (Some (lit "abcd:1234:uu")) true 1
  /\ entries_of (lit "abcd:1234:uu") = [lit "abcd:1234:uu"]
  /\ lit "abcd:1234:u" ∉ entries_of (lit "abcd:1234:uu").
Proof.
  split; [reflexivity|]. split; [|split; [reflexivity|by_computation]].
  unfold remove_card_reader_quirk.
  rewrite (remove_quirk_found CARD_READER_QUIRK)
    with (content := lit "abcd:1234:u,058f:6366:iu") (off := 12%nat).
  - vm_compute. reflexivity.
  - by_computation.
  - reflexivity.
  - discriminate.
  - vm_compute. reflexivity.
  - intros; discriminate.
Qed.

(** * The presence sampler *)

Lemma testbit_nibble (v : Z) (i : nat) :
  0 <= v < 16 -> (4 <= i)%nat -> Z.testbit v (Z.of_nat i) = false.
Proof.
  intros Hv Hi. destruct (Z.eq_dec v 0) as [->|Hne]; [apply Z.bits_0|].
  apply Z.bits_above_log2; [lia|].
  assert (Z.log2 v < 4) by (apply Z.log2_lt_pow2; lia). lia.
Qed.

(** C8. When the batch read fails the sampler returns the all-absent
    bitmask [0]; when it succeeds, bit [i] of the result is set exactly when
    line [i] reads active, for the four lines, and no other bit is set. *)
Theorem check_card_presence_fails_closed (rd : bulk_values) :
  (get_value_ret rd <> 0 -> check_card_presence rd = 0)
  /\ (get_value_ret rd = 0 ->
      forall i : nat,
        Z.testbit (check_card_presence rd) (Z.of_nat i)
        = (i <? NUM_PRESENCE_GPIOS)%nat && negb (line_values rd i =? 0)).
Proof.
  unfold check_card_presence. split.
  - intros H. destruct (Z.eqb_spec (get_value_ret rd) 0); [contradiction|reflexivity].
  - intros -> i. cbn [Z.eqb negb]. unfold NUM_PRESENCE_GPIOS. cbn [seq fold_left].
    destruct i as [|[|[|[|i]]]].
    1-4: destruct (line_values rd 0 =? 0), (line_values rd 1 =? 0),
           (line_values rd 2 =? 0), (line_values rd 3 =? 0); reflexivity.
    replace (S (S (S (S i))) <? 4)%nat with false by (symmetry; apply Nat.ltb_ge; lia).
    apply testbit_nibble; [|lia].
    destruct (line_values rd 0 =? 0), (line_values rd 1 =? 0),
      (line_values rd 2 =? 0), (line_values rd 3 =? 0); vm_compute; split; congruence.
Qed.

Lemma check_card_presence_fails_closed_witness :
  check_card_presence (mk_values (-1) (fun _ => 1)) = 0
  /\ Z.testbit (check_card_presence (reading 0 0 1 0)) 2 = true.
Proof.
  split.
  - apply (proj1 (check_card_presence_fails_closed (mk_values (-1) (fun _ => 1)))).
    simpl. lia.
  - apply (proj2 (check_card_presence_fails_closed (reading 0 0 1 0)) eq_refl 2%nat).
Defined.

(** * The debounce engine *)

(** ** One pass of the stabilizing loop *)

Lemma stabilize_step_error (bouncy_state : Z) (o : gpio_reply) :
  wait_result o < 0 -> stabilize_step bouncy_state o = Bail 5.
Proof.
  intros H. unfold stabilize_step, gpiod_line_event_wait_bulk.
  destruct (Z.ltb_spec (wait_result o) 0); [reflexivity|lia].
Qed.

Lemma stabilize_step_edge (bouncy_state : Z) (o : gpio_reply) :
  0 < wait_result o ->
  stabilize_step bouncy_state o = Continue (check_card_presence (sampled o)).
Proof.
  intros H. unfold stabilize_step, gpiod_line_event_wait_bulk.
  destruct (Z.ltb_spec (wait_result o) 0); [lia|].
  destruct (Z.ltb_spec 0 (wait_result o)); [reflexivity|lia].
Qed.

Lemma stabilize_step_settled (bouncy_state : Z) (o : gpio_reply) :
  wait_result o = 0 -> check_card_presence (sampled o) = bouncy_state ->
  stabilize_step bouncy_state o = Break.
Proof.
  intros H0 Hs. unfold stabilize_step, gpiod_line_event_wait_bulk. rewrite H0, Hs. cbn.
  rewrite Z.eqb_refl. reflexivity.
Qed.

Lemma stabilize_step_changed (bouncy_state : Z) (o : gpio_reply) :
  wait_result o = 0 -> check_card_presence (sampled o) <> bouncy_state ->
  stabilize_step bouncy_state o = Continue bouncy_state.
Proof.
  intros H0 Hs. unfold stabilize_step, gpiod_line_event_wait_bulk. rewrite H0. cbn.
  destruct (Z.eqb_spec bouncy_state (check_card_presence (sampled o))); [congruence|reflexivity].
Qed.

(** The four ways through the loop body. *)
Lemma stabilize_step_cases (bouncy_state : Z) (o : gpio_reply) :
  (wait_result o < 0 /\ stabilize_step bouncy_state o = Bail 5)
  \/ (0 < wait_result o
      /\ stabilize_step bouncy_state o = Continue (check_card_presence (sampled o)))
  \/ (wait_result o = 0 /\ check_card_presence (sampled o) = bouncy_state
      /\ stabilize_step bouncy_state o = Break)
  \/ (wait_result o = 0 /\ check_card_presence (sampled o) <> bouncy_state
      /\ stabilize_step bouncy_state o = Continue bouncy_state).
Proof.
  destruct (Z.lt_trichotomy (wait_result o) 0) as [H|[H|H]].
  - left. auto using stabilize_step_error.
  - destruct (Z.eq_dec (check_card_presence (sampled o)) bouncy_state) as [E|E].
    + right; right; left. auto using stabilize_step_settled.
    + right; right; right. auto using stabilize_step_changed.
  - right; left. auto using stabilize_step_edge.
Qed.

(** C4 as stated fails: with the candidate 1 (SD), a wait that times out
    on the fresh sample 2 (xD) leaves the candidate at 1.  A second timeout
    on the sample 2 does not settle, and one on the sample 1 settles on the
    old candidate. *)
Lemma timeout_keeps_candidate :
  check_card_presence (reading 0 1 0 0) = 2
  /\ stabilize_step 1 (mk_reply 0 500000000 (reading 0 1 0 0)) = Continue 1
  /\ stabilize_step 1 (mk_reply 0 500000000 (reading 0 1 0 0))
     <> Continue (check_card_presence (reading 0 1 0 0))
  /\ stabilize 1 [mk_reply 0 500000000 (reading 0 1 0 0);
                  mk_reply 0 500000000 (reading 0 1 0 0)] = Pending
  /\ stabilize 1 [mk_reply 0 500000000 (reading 0 1 0 0);
                  mk_reply 0 500000000 (reading 1 0 0 0)] = Settled 1 [].
Proof. vm_compute. repeat split; congruence. Qed.

(** C4, amended. When a wait times out and the fresh sample differs from
    the candidate, the loop keeps the candidate as it is and waits again;
    the candidate is replaced only by the sample taken after an edge. *)
Theorem timeout_with_changed_sample_keeps_waiting
    (bouncy_state : Z) (o : gpio_reply) (rest : list gpio_reply) :
  (wait_result o = 0 ->
   check_card_presence (sampled o) <> bouncy_state ->
   stabilize_step bouncy_state o = Continue bouncy_state
   /\ stabilize bouncy_state (o :: rest) = stabilize bouncy_state rest)
  /\ (0 < wait_result o ->
      stabilize_step bouncy_state o = Continue (check_card_presence (sampled o))
      /\ stabilize bouncy_state (o :: rest)
         = stabilize (check_card_presence (sampled o)) rest).
Proof.
  split.
  - intros H0 Hs. simpl. rewrite stabilize_step_changed by assumption. auto.
  - intros H. simpl. rewrite stabilize_step_edge by assumption. auto.
Qed.

Lemma timeout_with_changed_sample_keeps_waiting_witness :
  stabilize_step 1 (mk_reply 0 500000000 (reading 0 1 0 0)) = Continue 1
  /\ stabilize_step 1 (mk_reply 1 20000000 (reading 0 1 0 0)) = Continue 2.
Proof.
  split.
  - apply (proj1 (timeout_with_changed_sample_keeps_waiting 1
                    (mk_reply 0 500000000 (reading 0 1 0 0)) [])).
    + reflexivity.
    + vm_compute. discriminate.
  - apply (proj2 (timeout_with_changed_sample_keeps_waiting 1
                    (mk_reply 1 20000000 (reading 0 1 0 0)) [])).
    vm_compute. reflexivity.
Defined.

(** ** Settling *)

Lemma stabilize_length (replies : list gpio_reply) :
  forall bouncy_state d rest,
    stabilize bouncy_state replies = Settled d rest ->
    (length rest < length replies)%nat.
Proof.
  induction replies as [|o tr IH]; intros b d rest; simpl; [discriminate|].
  destruct (stabilize_step b o) as [status|b'|].
  - discriminate.
  - intros H. apply IH in H. lia.
  - intros [= _ <-]. lia.
Qed.

(** How a settled state comes about: the replies consumed end with a wait
    that timed out on the candidate; the candidate is the one the loop was
    entered with, or the sample of the last edge. *)
Lemma stabilize_settled_inv (replies : list gpio_reply) :
  forall bouncy_state d rest,
    stabilize bouncy_state replies = Settled d rest ->
    (exists quiet o_last,
        replies = quiet ++ o_last :: rest /\ d = bouncy_state
        /\ Forall (unsettled d) quiet
        /\ wait_result o_last = 0 /\ check_card_presence (sampled o_last) = d)
    \/ (exists pre o_edge quiet o_last,
          replies = pre ++ o_edge :: quiet ++ o_last :: rest
          /\ 0 < wait_result o_edge /\ check_card_presence (sampled o_edge) = d
          /\ Forall (unsettled d) quiet
          /\ wait_result o_last = 0 /\ check_card_presence (sampled o_last) = d).
Proof.
  induction replies as [|o tr IH]; intros b d rest; simpl; [discriminate|].
  destruct (stabilize_step_cases b o) as [[_ E]|[[Hr E]|[(Hr & Hs & E)|(Hr & Hs & E)]]];
    rewrite E.
  - discriminate.
  - intros H. right.
    destruct (IH _ _ _ H) as [(quiet & ol & -> & -> & Hq & H0 & Hd)
                             |(pre & oe & quiet & ol & -> & He & Hse & Hq & H0 & Hd)].
    + exists [], o, quiet, ol. auto 10.
    + exists (o :: pre), oe, quiet, ol. auto 10.
  - intros [= <- <-]. left. exists [], o. auto 10.
  - intros H.
    destruct (IH _ _ _ H) as [(quiet & ol & -> & -> & Hq & H0 & Hd)
                             |(pre & oe & quiet & ol & -> & He & Hse & Hq & H0 & Hd)].
    + left. exists (o :: quiet), ol. repeat split; auto.
      constructor; [split; assumption|assumption].
    + right. exists (o :: pre), oe, quiet, ol. auto 10.
Qed.

(** Before the last reply consumed, the loop has not left. *)
Lemma stabilize_prefix_pending (replies : list gpio_reply) :
  forall bouncy_state d rest n,
    stabilize bouncy_state replies = Settled d rest ->
    (n < length replies - length rest)%nat ->
    stabilize bouncy_state (take n replies) = Pending.
Proof.
  induction replies as [|o tr IH]; intros b d rest n; simpl; [discriminate|].
  destruct n as [|n]; [reflexivity|]. simpl.
  destruct (stabilize_step b o) as [status|b'|].
  - discriminate.
  - intros H Hn. apply (IH _ _ _ _ H).
    pose proof (stabilize_length _ _ _ _ H). lia.
  - intros [= _ <-] Hn. lia.
Qed.

Lemma wait_settled_inv (replies : list gpio_reply) (d : Z) (rest : list gpio_reply) :
  wait_for_card_presence_change replies = Settled d rest ->
  exists pre o_edge quiet o_last,
    replies = pre ++ o_edge :: quiet ++ o_last :: rest
    /\ 0 < wait_result o_edge /\ check_card_presence (sampled o_edge) = d
    /\ Forall (unsettled d) quiet
    /\ wait_result o_last = 0 /\ check_card_presence (sampled o_last) = d.
Proof.
  unfold wait_for_card_presence_change, gpiod_line_event_wait_bulk.
  destruct replies as [|o tr]; simpl; [discriminate|].
  destruct (Z.leb_spec (wait_result o) 0) as [|Hr]; [discriminate|].
  intros H.
  destruct (stabilize_settled_inv _ _ _ _ H)
    as [(quiet & ol & -> & -> & Hq & H0 & Hd)
       |(pre & oe & quiet & ol & -> & He & Hse & Hq & H0 & Hd)].
  - exists [], o, quiet, ol. auto 10.
  - exists (o :: pre), oe, quiet, ol. auto 10.
Qed.

Lemma wait_length (replies : list gpio_reply) (d : Z) (rest : list gpio_reply) :
  wait_for_card_presence_change replies = Settled d rest ->
  (length rest + 2 <= length replies)%nat.
Proof.
  unfold wait_for_card_presence_change, gpiod_line_event_wait_bulk.
  destruct replies as [|o tr]; simpl; [discriminate|].
  destruct (wait_result o <=? 0); [discriminate|].
  intros H. apply stabilize_length in H. lia.
Qed.

Lemma wait_prefix_pending (replies : list gpio_reply) (d : Z)
    (rest : list gpio_reply) (n : nat) :
  wait_for_card_presence_change replies = Settled d rest ->
  (n < length replies - length rest)%nat ->
  wait_for_card_presence_change (take n replies) = Pending.
Proof.
  unfold wait_for_card_presence_change, gpiod_line_event_wait_bulk.
  destruct replies as [|o tr]; simpl; [discriminate|].
  destruct n as [|n]; [reflexivity|]. simpl.
  destruct (wait_result o <=? 0); [discriminate|].
  intros H Hn. apply (stabilize_prefix_pending _ _ _ _ _ H).
  pose proof (stabilize_length _ _ _ _ H). lia.
Qed.

(** While edges keep arriving before the timeout, nothing is settled. *)
Lemma stabilize_bouncing (replies : list gpio_reply) :
  forall bouncy_state,
    Forall (fun o => 0 < wait_result o) replies ->
    stabilize bouncy_state replies = Pending.
Proof.
  induction replies as [|o tr IH]; intros b H; [reflexivity|].
  inversion H as [|? ? Ho Htr]; subst. simpl.
  rewrite stabilize_step_edge by exact Ho. apply IH, Htr.
Qed.

Lemma wait_bouncing (replies : list gpio_reply) :
  Forall (fun o => 0 < wait_result o) replies ->
  wait_for_card_presence_change replies = Pending.
Proof.
  unfold wait_for_card_presence_change, gpiod_line_event_wait_bulk.
  destruct replies as [|o tr]; [reflexivity|].
  intros H. inversion H as [|? ? Ho Htr]; subst. simpl.
  destruct (Z.leb_spec (wait_result o) 0); [lia|].
  apply stabilize_bouncing, Htr.
Qed.

(** An edge followed by a wait that times out on the same sample. *)
Lemma wait_clean_transition (edge quiet : gpio_reply) (rest : list gpio_reply) :
  0 < wait_result edge -> wait_result quiet = 0 ->
  check_card_presence (sampled quiet) = check_card_presence (sampled edge) ->
  wait_for_card_presence_change (edge :: quiet :: rest)
  = Settled (check_card_presence (sampled edge)) rest.
Proof.
  unfold wait_for_card_presence_change, gpiod_line_event_wait_bulk.
  intros He Hq Hs. simpl.
  destruct (Z.leb_spec (wait_result edge) 0); [lia|].
  rewrite stabilize_step_settled by assumption. reflexivity.
Qed.

(** ** The monitoring loop *)

Lemma monitor_settled (fuel : nat) (d d' : Z) (replies rest : list gpio_reply) :
  wait_for_card_presence_change replies = Settled d' rest ->
  monitor (S fuel) d replies
  = mk_run (authorize d' :: commands (monitor fuel d' rest))
           (debounced_presence_flags (monitor fuel d' rest))
           (ended (monitor fuel d' rest)).
Proof. intros H. simpl. rewrite H. reflexivity. Qed.

Lemma monitor_commands (fuel : nat) :
  forall d replies,
    commands (monitor fuel d replies) = map authorize (settlings fuel replies).
Proof.
  induction fuel as [|fuel IH]; intros d tr; [reflexivity|]. simpl.
  destruct (wait_for_card_presence_change tr) as [status| |d' rest]; try reflexivity.
  simpl. f_equal. apply IH.
Qed.

(** More fuel than replies is enough fuel. *)
Lemma monitor_fuel (fuel : nat) :
  forall fuel' d replies,
    (length replies < fuel)%nat -> (length replies < fuel')%nat ->
    monitor fuel d replies = monitor fuel' d replies.
Proof.
  induction fuel as [|fuel IH]; intros fuel' d tr Hf Hf'; [lia|].
  destruct fuel' as [|fuel']; [lia|]. simpl.
  destruct (wait_for_card_presence_change tr) as [status| |d' rest] eqn:E; try reflexivity.
  apply wait_length in E. rewrite (IH fuel' d' rest) by lia. reflexivity.
Qed.

Lemma monitor_never_starves (fuel : nat) :
  forall d replies,
    (length replies < fuel)%nat -> ended (monitor fuel d replies) <> OutOfFuel.
Proof.
  induction fuel as [|fuel IH]; intros d tr Hf; [lia|]. simpl.
  destruct (wait_for_card_presence_change tr) as [status| |d' rest] eqn:E; try discriminate.
  simpl. apply IH. apply wait_length in E. lia.
Qed.

Lemma settlings_fuel (fuel : nat) :
  forall fuel' replies,
    (length replies < fuel)%nat -> (length replies < fuel')%nat ->
    settlings fuel replies = settlings fuel' replies.
Proof.
  induction fuel as [|fuel IH]; intros fuel' tr Hf Hf'; [lia|].
  destruct fuel' as [|fuel']; [lia|]. simpl.
  destruct (wait_for_card_presence_change tr) as [status| |d' rest] eqn:E; try reflexivity.
  apply wait_length in E. rewrite (IH fuel' rest) by lia. reflexivity.
Qed.

Lemma monitor_well_separated (samples : list Z) (replies : list gpio_reply) :
  well_separated samples replies ->
  forall d fuel,
    (length replies < fuel)%nat ->
    settlings fuel replies = samples
    /\ monitor fuel d replies
       = mk_run (map authorize samples) (default d (last samples)) Blocked.
Proof.
  induction 1 as [|edge quiet samples rest He Hq Ht Hs Hws IH]; intros d fuel Hf.
  - destruct fuel as [|fuel]; [simpl in Hf; lia|]. split; reflexivity.
  - destruct fuel as [|fuel]; [simpl in Hf; lia|].
    pose proof (wait_clean_transition edge quiet rest He Hq Hs) as Hw.
    destruct (IH (check_card_presence (sampled edge)) fuel) as [IH1 IH2];
      [simpl in Hf; lia|].
    split.
    + cbn [settlings]. rewrite Hw, IH1. reflexivity.
    + rewrite (monitor_settled _ _ _ _ _ Hw), IH2. simpl. f_equal.
      rewrite last_cons. destruct (last samples); reflexivity.
Qed.

(** A reply other than a timeout, at the end of the replies, does not end
    a wait with a settled state. *)
Lemma stabilize_snoc (replies : list gpio_reply) (o : gpio_reply) :
  wait_result o <> 0 ->
  forall bouncy_state,
    match stabilize bouncy_state replies with
    | Exit status => stabilize bouncy_state (replies ++ [o]) = Exit status
    | Pending =>
        stabilize bouncy_state (replies ++ [o]) = Pending
        \/ exists status, stabilize bouncy_state (replies ++ [o]) = Exit status
    | Settled d rest => stabilize bouncy_state (replies ++ [o]) = Settled d (rest ++ [o])
    end.
Proof.
  intros Ho. induction replies as [|r tr IH]; intros b; simpl.
  - destruct (stabilize_step_cases b o) as [[_ E]|[[_ E]|[(H0 & _)|(H0 & _)]]];
      try contradiction; rewrite E; eauto.
  - destruct (stabilize_step b r) as [status|b'|]; [reflexivity|apply IH|reflexivity].
Qed.

Lemma wait_snoc (replies : list gpio_reply) (o : gpio_reply) :
  wait_result o <> 0 ->
  match wait_for_card_presence_change replies with
  | Exit status => wait_for_card_presence_change (replies ++ [o]) = Exit status
  | Pending =>
      wait_for_card_presence_change (replies ++ [o]) = Pending
      \/ exists status, wait_for_card_presence_change (replies ++ [o]) = Exit status
  | Settled d rest =>
      wait_for_card_presence_change (replies ++ [o]) = Settled d (rest ++ [o])
  end.
Proof.
  unfold wait_for_card_presence_change, gpiod_line_event_wait_bulk.
  intros Ho. destruct replies as [|r tr]; simpl.
  - destruct (wait_result o <=? 0); eauto.
  - destruct (wait_result r <=? 0); [reflexivity|].
    apply stabilize_snoc, Ho.
Qed.

Lemma monitor_snoc (fuel : nat) (o : gpio_reply) :
  wait_result o <> 0 ->
  forall d replies,
    commands (monitor fuel d (replies ++ [o])) = commands (monitor fuel d replies).
Proof.
  intros Ho. induction fuel as [|fuel IH]; intros d tr; [reflexivity|]. simpl.
  pose proof (wait_snoc tr o Ho) as H.
  destruct (wait_for_card_presence_change tr) as [status| |d' rest].
  - rewrite H. reflexivity.
  - destruct H as [H|[status H]]; rewrite H; reflexivity.
  - rewrite H. simpl. f_equal. apply IH.
Qed.

Lemma stabilize_extend (replies more : list gpio_reply) :
  forall bouncy_state,
    match stabilize bouncy_state replies with
    | Exit status => stabilize bouncy_state (replies ++ more) = Exit status
    | Pending => True
    | Settled d rest => stabilize bouncy_state (replies ++ more) = Settled d (rest ++ more)
    end.
Proof.
  induction replies as [|r tr IH]; intros b; simpl; [exact I|].
  destruct (stabilize_step b r) as [status|b'|]; [reflexivity|apply IH|reflexivity].
Qed.

Lemma wait_extend (replies more : list gpio_reply) :
  match wait_for_card_presence_change replies with
  | Exit status => wait_for_card_presence_change (replies ++ more) = Exit status
  | Pending => True
  | Settled d rest =>
      wait_for_card_presence_change (replies ++ more) = Settled d (rest ++ more)
  end.
Proof.
  unfold wait_for_card_presence_change, gpiod_line_event_wait_bulk.
  destruct replies as [|r tr]; simpl; [exact I|].
  destruct (wait_result r <=? 0); [reflexivity|]. apply stabilize_extend.
Qed.

(** A transition may bounce before it holds: after any run of edges, the
    sample taken at the last edge is settled by the first wait that times
    out with the lines still reading the same. *)
Lemma stabilize_after_bounces (bounces : list gpio_reply) :
  forall (bouncy_state : Z) (edge quiet : gpio_reply) (rest : list gpio_reply),
    Forall (fun o => 0 < wait_result o) bounces ->
    0 < wait_result edge ->
    wait_result quiet = 0 ->
    check_card_presence (sampled quiet) = check_card_presence (sampled edge) ->
    stabilize bouncy_state (bounces ++ edge :: quiet :: rest)
    = Settled (check_card_presence (sampled edge)) rest.
Proof.
  induction bounces as [|o bounces IH]; intros b edge quiet rest Hall He Hq Hs.
  - simpl. rewrite stabilize_step_edge by exact He.
    rewrite stabilize_step_settled by assumption. reflexivity.
  - inversion Hall as [|? ? Ho Hrest]; subst. simpl.
    rewrite stabilize_step_edge by exact Ho. apply IH; assumption.
Qed.

Lemma wait_after_bounces (bounces : list gpio_reply) (edge quiet : gpio_reply)
    (rest : list gpio_reply) :
  Forall (fun o => 0 < wait_result o) bounces ->
  0 < wait_result edge ->
  wait_result quiet = 0 ->
  check_card_presence (sampled quiet) = check_card_presence (sampled edge) ->
  wait_for_card_presence_change (bounces ++ edge :: quiet :: rest)
  = Settled (check_card_presence (sampled edge)) rest.
Proof.
  intros Hall He Hq Hs. destruct bounces as [|o bounces].
  - apply wait_clean_transition; assumption.
  - inversion Hall as [|? ? Ho Hrest]; subst.
    unfold wait_for_card_presence_change, gpiod_line_event_wait_bulk. simpl.
    destruct (Z.leb_spec (wait_result o) 0); [lia|].
    apply stabilize_after_bounces; assumption.
Qed.

(** What one more reply does to a wait that has not returned: the wait goes
    on, or fails, or the reply is a timeout on the candidate and settles
    it. *)
Lemma stabilize_pending_snoc (replies : list gpio_reply) (o : gpio_reply) :
  forall bouncy_state,
    stabilize bouncy_state replies = Pending ->
    stabilize bouncy_state (replies ++ [o]) = Pending
    \/ (exists status, stabilize bouncy_state (replies ++ [o]) = Exit status)
    \/ (wait_result o = 0
        /\ stabilize bouncy_state (replies ++ [o])
           = Settled (check_card_presence (sampled o)) []).
Proof.
  induction replies as [|r tr IH]; intros b; simpl.
  - intros _.
    destruct (stabilize_step_cases b o) as [[_ E]|[[_ E]|[(H0 & Hs & E)|(_ & _ & E)]]];
      rewrite E; eauto.
    right; right. rewrite Hs. auto.
  - destruct (stabilize_step b r) as [status|b'|]; [discriminate|apply IH|discriminate].
Qed.

Lemma wait_pending_snoc (replies : list gpio_reply) (o : gpio_reply) :
  wait_for_card_presence_change replies = Pending ->
  wait_for_card_presence_change (replies ++ [o]) = Pending
  \/ (exists status, wait_for_card_presence_change (replies ++ [o]) = Exit status)
  \/ (wait_result o = 0
      /\ wait_for_card_presence_change (replies ++ [o])
         = Settled (check_card_presence (sampled o)) []).
Proof.
  unfold wait_for_card_presence_change, gpiod_line_event_wait_bulk.
  destruct replies as [|r tr]; simpl.
  - intros _. destruct (wait_result o <=? 0); eauto.
  - destruct (wait_result r <=? 0); [discriminate|]. apply stabilize_pending_snoc.
Qed.

(** One more reply adds at most one command to those of the replies before
    it, and only when it is a wait that timed out: the command is then the
    one for the sample taken at that timeout. *)
Lemma monitor_snoc_reply (fuel : nat) (o : gpio_reply) :
  forall d replies,
    commands (monitor fuel d (replies ++ [o])) = commands (monitor fuel d replies)
    \/ (wait_result o = 0
        /\ commands (monitor fuel d (replies ++ [o]))
           = commands (monitor fuel d replies)
               ++ [authorize (check_card_presence (sampled o))]).
Proof.
  induction fuel as [|fuel IH]; intros d tr; [left; reflexivity|]. simpl.
  pose proof (wait_extend tr [o]) as Hext.
  destruct (wait_for_card_presence_change tr) as [status| |d' rest] eqn:E.
  - rewrite Hext. left. reflexivity.
  - destruct (wait_pending_snoc tr o E) as [H|[[status H]|[H0 H]]]; rewrite H.
    + left. reflexivity.
    + left. reflexivity.
    + right. split; [exact H0|]. destruct fuel; reflexivity.
  - rewrite Hext. simpl. destruct (IH d' rest) as [H|[H0 H]].
    + left. rewrite H. reflexivity.
    + right. split; [exact H0|]. rewrite H. reflexivity.
Qed.

(** * The claims about the debounce engine and the controller *)

(** C3. (a) When the samples fed to the engine are at least 500 ms apart
    (each arrives with an edge and still reads the same when the 500 ms wait
    that follows times out), the engine commits every one of them in turn,
    and the debounced state it is left with is the last sample.  (b) While
    edges keep arriving before the timeout nothing is committed.  (c) A
    state [d] is committed only at a wait that ran the whole 500 ms without
    an edge and whose fresh sample is [d], the sample taken at the last
    edge; on no shorter run of replies has the engine committed anything. *)
Theorem debounce_commits_after_stability :
  (forall (samples : list Z) (replies : list gpio_reply) (d : Z) (fuel : nat),
      well_separated samples replies ->
      (length replies < fuel)%nat ->
      settlings fuel replies = samples
      /\ debounced_presence_flags (monitor fuel d replies) = default d (last samples)
      /\ ended (monitor fuel d replies) = Blocked)
  /\ (forall replies : list gpio_reply,
        Forall (fun o => 0 < wait_result o) replies ->
        wait_for_card_presence_change replies = Pending)
  /\ (forall (replies : list gpio_reply) (d : Z) (rest : list gpio_reply),
        Forall (honours timeout) replies ->
        wait_for_card_presence_change replies = Settled d rest ->
        exists pre o_edge quiet o_last,
          replies = pre ++ o_edge :: quiet ++ o_last :: rest
          /\ 0 < wait_result o_edge
          /\ check_card_presence (sampled o_edge) = d
          /\ Forall (unsettled d) quiet
          /\ wait_result o_last = 0
          /\ 500000000 <= wait_elapsed o_last
          /\ check_card_presence (sampled o_last) = d
          /\ forall n, (n < length replies - length rest)%nat ->
                       wait_for_card_presence_change (take n replies) = Pending).
Proof.
  split; [|split].
  - intros samples replies d fuel Hws Hf.
    destruct (monitor_well_separated samples replies Hws d fuel Hf) as [H1 H2].
    rewrite H2. auto.
  - exact wait_bouncing.
  - intros replies d rest Hh Hw.
    destruct (wait_settled_inv _ _ _ Hw)
      as (pre & oe & quiet & ol & Heq & He & Hse & Hq & H0 & Hd).
    exists pre, oe, quiet, ol. repeat (split; [assumption|]).
    split; [|split; [assumption|]].
    + assert (Hin : honours timeout ol).
      { rewrite Forall_forall in Hh. apply Hh. rewrite Heq.
        rewrite elem_of_app, elem_of_cons, elem_of_app, elem_of_cons. auto. }
      apply Hin, H0.
    + intros n Hn. apply (wait_prefix_pending _ _ _ _ Hw Hn).
Qed.

Lemma debounce_commits_after_stability_witness :
  debounced_presence_flags
    (monitor 5 0 [mk_reply 1 0 (reading 1 0 0 0); mk_reply 0 500000000 (reading 1 0 0 0);
                  mk_reply 1 0 (reading 0 0 0 0); mk_reply 0 500000000 (reading 0 0 0 0)])
  = 0
  /\ wait_for_card_presence_change
       [mk_reply 1 0 (reading 1 0 0 0); mk_reply 2 1000 (reading 0 0 0 0)] = Pending
  /\ exists o_last,
       wait_result o_last = 0 /\ 500000000 <= wait_elapsed o_last
       /\ check_card_presence (sampled o_last) = 1.
Proof.
  split; [|split].
  - destruct (proj1 debounce_commits_after_stability [1; 0]
                [mk_reply 1 0 (reading 1 0 0 0); mk_reply 0 500000000 (reading 1 0 0 0);
                 mk_reply 1 0 (reading 0 0 0 0); mk_reply 0 500000000 (reading 0 0 0 0)]
                0 5%nat) as (_ & H & _).
    + apply (ws_cons (mk_reply 1 0 (reading 1 0 0 0)) (mk_reply 0 500000000 (reading 1 0 0 0)));
        [reflexivity|reflexivity|vm_compute; discriminate|reflexivity|].
      apply (ws_cons (mk_reply 1 0 (reading 0 0 0 0)) (mk_reply 0 500000000 (reading 0 0 0 0)));
        [reflexivity|reflexivity|vm_compute; discriminate|reflexivity|].
      apply ws_nil.
    + simpl. lia.
    + exact H.
  - apply (proj1 (proj2 debounce_commits_after_stability)).
    repeat constructor.
  - destruct (proj2 (proj2 debounce_commits_after_stability)
                [mk_reply 1 0 (reading 1 0 0 0); mk_reply 0 500000000 (reading 1 0 0 0)]
                1 [])
      as (pre & oe & quiet & ol & Heq & _ & _ & _ & H0 & H & Hd & _).
    + constructor; [intros H; discriminate H|].
      constructor; [intros _; vm_compute; discriminate|constructor].
    + reflexivity.
    + exists ol. auto.
Defined.

Lemma authorize_present (presence : Z) :
  presence <> 0 -> authorize presence = connect_card_reader.
Proof.
  intros H. unfold authorize.
  destruct (Z.eqb_spec presence 0); [contradiction|reflexivity].
Qed.

(** C5. After startup, a transition that holds for 500 ms makes the loop
    issue exactly one write to the authorization file, whether it bounced
    first or not: after any run of edges, the wait that times out with the
    lines reading as at the last edge is followed by "echo 1" when that
    sample is nonzero and by "echo 0" when it is 0000, and by nothing else
    until further replies arrive.  No write is issued inside a bounce
    window: a run of edges causes none, a reply other than a timed-out wait
    adds none, and a reply adds a write only if it is a wait that ran its
    whole 500 ms timeout; the write is then the one for the sample taken at
    that timeout. *)
Theorem authorize_once_per_stable_transition :
  (forall (fuel : nat) (d : Z) (bounces : list gpio_reply)
          (edge quiet : gpio_reply) (rest : list gpio_reply),
      Forall (fun o => 0 < wait_result o) bounces ->
      0 < wait_result edge ->
      wait_result quiet = 0 ->
      check_card_presence (sampled quiet) = check_card_presence (sampled edge) ->
      commands (monitor (S fuel) d (bounces ++ edge :: quiet :: rest))
      = (if check_card_presence (sampled edge) =? 0
         then "echo 0 > /sys/bus/usb/devices/1-1.4/authorized"%string
         else "echo 1 > /sys/bus/usb/devices/1-1.4/authorized"%string)
          :: commands (monitor fuel (check_card_presence (sampled edge)) rest)
      /\ monitor (S (S fuel)) d (bounces ++ [edge; quiet])
         = mk_run [if check_card_presence (sampled edge) =? 0
                   then "echo 0 > /sys/bus/usb/devices/1-1.4/authorized"%string
                   else "echo 1 > /sys/bus/usb/devices/1-1.4/authorized"%string]
                  (check_card_presence (sampled edge)) Blocked)
  /\ (forall (fuel : nat) (d : Z) (edge quiet : gpio_reply) (rest : list gpio_reply),
        0 < wait_result edge ->
        wait_result quiet = 0 ->
        check_card_presence (sampled quiet) = check_card_presence (sampled edge) ->
        commands (monitor (S fuel) d (edge :: quiet :: rest))
        = authorize (check_card_presence (sampled edge))
            :: commands (monitor fuel (check_card_presence (sampled edge)) rest)
        /\ commands (monitor (S (S fuel)) d [edge; quiet])
           = [authorize (check_card_presence (sampled edge))])
  /\ (forall presence : Z,
        presence <> 0 ->
        authorize presence = "echo 1 > /sys/bus/usb/devices/1-1.4/authorized"%string)
  /\ authorize 0 = "echo 0 > /sys/bus/usb/devices/1-1.4/authorized"%string
  /\ (forall (fuel : nat) (d : Z) (replies : list gpio_reply),
        Forall (fun o => 0 < wait_result o) replies ->
        commands (monitor fuel d replies) = [])
  /\ (forall (fuel : nat) (d : Z) (replies : list gpio_reply) (o : gpio_reply),
        wait_result o <> 0 ->
        commands (monitor fuel d (replies ++ [o])) = commands (monitor fuel d replies))
  /\ (forall (fuel : nat) (d : Z) (replies : list gpio_reply) (o : gpio_reply),
        honours timeout o ->
        commands (monitor fuel d (replies ++ [o])) = commands (monitor fuel d replies)
        \/ (wait_result o = 0
            /\ 500000000 <= wait_elapsed o
            /\ commands (monitor fuel d (replies ++ [o]))
               = commands (monitor fuel d replies)
                   ++ [if check_card_presence (sampled o) =? 0
                       then "echo 0 > /sys/bus/usb/devices/1-1.4/authorized"%string
                       else "echo 1 > /sys/bus/usb/devices/1-1.4/authorized"%string])).
Proof.
  assert (Hauth : forall presence : Z,
             authorize presence
             = if presence =? 0
               then "echo 0 > /sys/bus/usb/devices/1-1.4/authorized"%string
               else "echo 1 > /sys/bus/usb/devices/1-1.4/authorized"%string).
  { intros presence. unfold authorize. destruct (presence =? 0); reflexivity. }
  split; [|split; [|split; [|split; [|split; [|split]]]]].
  - intros fuel d bounces edge quiet rest Hall He Hq Hs.
    pose proof (wait_after_bounces bounces edge quiet rest Hall He Hq Hs) as Hw.
    pose proof (wait_after_bounces bounces edge quiet [] Hall He Hq Hs) as Hw0.
    rewrite (monitor_settled _ _ _ _ _ Hw), (monitor_settled _ _ _ _ _ Hw0), Hauth.
    split; reflexivity.
  - intros fuel d edge quiet rest He Hq Hs.
    pose proof (wait_clean_transition edge quiet rest He Hq Hs) as Hw.
    pose proof (wait_clean_transition edge quiet [] He Hq Hs) as Hw0.
    rewrite (monitor_settled _ _ _ _ _ Hw), (monitor_settled _ _ _ _ _ Hw0).
    split; reflexivity.
  - intros presence H. rewrite authorize_present by exact H. reflexivity.
  - reflexivity.
  - intros fuel d replies H. destruct fuel as [|fuel]; [reflexivity|].
    simpl. rewrite wait_bouncing by exact H. reflexivity.
  - intros fuel d replies o Ho. apply monitor_snoc, Ho.
  - intros fuel d replies o Hh.
    destruct (monitor_snoc_reply fuel o d replies) as [H|[H0 H]]; [left; exact H|].
    right. split; [exact H0|]. split; [exact (Hh H0)|].
    rewrite H, Hauth. reflexivity.
Qed.

Lemma authorize_once_per_stable_transition_witness :
  monitor 2 1 [mk_reply 1 0 (reading 1 0 0 0);
               mk_reply 1 20000000 (reading 0 0 0 0);
               mk_reply 0 500000000 (reading 0 0 0 0)]
  = mk_run ["echo 0 > /sys/bus/usb/devices/1-1.4/authorized"%string] 0 Blocked
  /\ commands (monitor 2 0 [mk_reply 1 0 (reading 1 0 0 0);
                            mk_reply 0 500000000 (reading 1 0 0 0)])
     = ["echo 1 > /sys/bus/usb/devices/1-1.4/authorized"%string]
  /\ commands (monitor 2 1 [mk_reply 1 0 (reading 0 0 0 0);
                            mk_reply 0 500000000 (reading 0 0 0 0)])
     = ["echo 0 > /sys/bus/usb/devices/1-1.4/authorized"%string]
  /\ commands (monitor 3 0 [mk_reply 1 0 (reading 1 0 0 0);
                            mk_reply 1 1000 (reading 0 0 0 0)]) = []
  /\ (commands (monitor 2 0 ([mk_reply 1 0 (reading 0 0 0 1)]
                               ++ [mk_reply 0 500000000 (reading 0 0 0 1)]))
      = commands (monitor 2 0 [mk_reply 1 0 (reading 0 0 0 1)])
      \/ (0 = 0
          /\ 500000000 <= 500000000
          /\ commands (monitor 2 0 ([mk_reply 1 0 (reading 0 0 0 1)]
                                      ++ [mk_reply 0 500000000 (reading 0 0 0 1)]))
             = commands (monitor 2 0 [mk_reply 1 0 (reading 0 0 0 1)])
                 ++ ["echo 1 > /sys/bus/usb/devices/1-1.4/authorized"%string])).
Proof.
  split; [|split; [|split; [|split]]].
  - apply (proj1 authorize_once_per_stable_transition 0%nat 1
             [mk_reply 1 0 (reading 1 0 0 0)]
             (mk_reply 1 20000000 (reading 0 0 0 0))
             (mk_reply 0 500000000 (reading 0 0 0 0)) []);
      [repeat constructor|reflexivity|reflexivity|reflexivity].
  - apply (proj1 (proj2 authorize_once_per_stable_transition) 0%nat 0
             (mk_reply 1 0 (reading 1 0 0 0)) (mk_reply 0 500000000 (reading 1 0 0 0)) []);
      reflexivity.
  - apply (proj1 (proj2 authorize_once_per_stable_transition) 0%nat 1
             (mk_reply 1 0 (reading 0 0 0 0)) (mk_reply 0 500000000 (reading 0 0 0 0)) []);
      reflexivity.
  - apply (proj1 (proj2 (proj2 (proj2 (proj2 authorize_once_per_stable_transition))))).
    repeat constructor.
  - apply (proj2 (proj2 (proj2 (proj2 (proj2 (proj2
             authorize_once_per_stable_transition))))) 2%nat 0
             [mk_reply 1 0 (reading 0 0 0 1)]
             (mk_reply 0 500000000 (reading 0 0 0 1))).
    intros _. vm_compute. discriminate.
Defined.

(** C7. Once the GPIO lines are set up, [main] starts with the bind command
    followed by "echo 1" to the authorization file when the initial presence
    is nonzero, and with "echo 0" alone when it is zero.  Every command
    after that belongs to one settled state, in order: "echo 0" when the
    state is zero and "echo 1" when it is not; the bind command is not among
    them. *)
Theorem startup_binds_once_then_only_authorizes (w : world) :
  chip_found w = true ->
  get_lines_ret w = 0 ->
  request_ret w = 0 ->
  commands (fst (main w))
  = (if check_card_presence (initial_values w) =? 0
     then ["echo 0 > /sys/bus/usb/devices/1-1.4/authorized"%string]
     else ["echo 1-1.4:1.0 > /sys/bus/usb/drivers/usb-storage/bind 2>/dev/null"%string;
           "echo 1 > /sys/bus/usb/devices/1-1.4/authorized"%string])
      ++ map (fun presence : Z =>
                if presence =? 0
                then "echo 0 > /sys/bus/usb/devices/1-1.4/authorized"%string
                else "echo 1 > /sys/bus/usb/devices/1-1.4/authorized"%string)
           (settlings (S (length (replies w))) (replies w))
  /\ (forall (fuel : nat) (d d' : Z) (replies rest : list gpio_reply),
        wait_for_card_presence_change replies = Settled d' rest ->
        settlings (S fuel) replies = d' :: settlings fuel rest
        /\ commands (monitor (S fuel) d replies)
           = (if d' =? 0
              then "echo 0 > /sys/bus/usb/devices/1-1.4/authorized"%string
              else "echo 1 > /sys/bus/usb/devices/1-1.4/authorized"%string)
               :: commands (monitor fuel d' rest))
  /\ commands (fst (main w))
     = (if check_card_presence (initial_values w) =? 0
        then [disconnect_card_reader]
        else [bind_card_reader; connect_card_reader])
         ++ map authorize (settlings (S (length (replies w))) (replies w))
  /\ (bind_card_reader ∉ map authorize (settlings (S (length (replies w))) (replies w)))
  /\ Forall (fun c => c = connect_card_reader \/ c = disconnect_card_reader)
       (map authorize (settlings (S (length (replies w))) (replies w)))
  /\ ended (fst (main w)) <> OutOfFuel.
Proof.
  intros Hchip Hlines Hreq.
  assert (Hauth : forall presence : Z,
             authorize presence
             = if presence =? 0
               then "echo 0 > /sys/bus/usb/devices/1-1.4/authorized"%string
               else "echo 1 > /sys/bus/usb/devices/1-1.4/authorized"%string).
  { intros presence. unfold authorize. destruct (presence =? 0); reflexivity. }
  assert (Hall : Forall (fun c => c = connect_card_reader \/ c = disconnect_card_reader)
                   (map authorize (settlings (S (length (replies w))) (replies w)))).
  { generalize (settlings (S (length (replies w))) (replies w)). intros l.
    induction l as [|d l IH]; [constructor|]. constructor; [|exact IH].
    unfold authorize. destruct (d =? 0); auto. }
  assert (Hmain : commands (fst (main w))
                  = (if check_card_presence (initial_values w) =? 0
                     then [disconnect_card_reader]
                     else [bind_card_reader; connect_card_reader])
                      ++ map authorize (settlings (S (length (replies w))) (replies w))).
  { unfold main. rewrite Hchip, Hlines, Hreq. cbn [negb Z.eqb fst commands].
    rewrite monitor_commands.
    destruct (check_card_presence (initial_values w) =? 0); reflexivity. }
  split; [|split; [|split; [|split; [|split]]]].
  - rewrite Hmain, (map_ext _ _ Hauth).
    destruct (check_card_presence (initial_values w) =? 0); reflexivity.
  - intros fuel d d' tr rest H. split.
    + cbn [settlings]. rewrite H. reflexivity.
    + rewrite (monitor_settled _ _ _ _ _ H), Hauth. reflexivity.
  - exact Hmain.
  - intros Hin. rewrite Forall_forall in Hall.
    destruct (Hall _ Hin) as [H|H]; discriminate H.
  - exact Hall.
  - unfold main. rewrite Hchip, Hlines, Hreq. cbn [negb Z.eqb fst ended].
    apply monitor_never_starves. lia.
Qed.

Lemma startup_binds_once_then_only_authorizes_witness :
  commands (fst (main (mk_world true 0 0 NUL (fun _ => NUL) (mk_fs None false 0)
                         (reading 1 0 0 0)
                         [mk_reply 1 0 (reading 0 0 0 0);
                          mk_reply 0 500000000 (reading 0 0 0 0);
                          mk_reply 1 0 (reading 0 1 0 0);
                          mk_reply 0 500000000 (reading 0 1 0 0)])))
  = ["echo 1-1.4:1.0 > /sys/bus/usb/drivers/usb-storage/bind 2>/dev/null"%string;
     "echo 1 > /sys/bus/usb/devices/1-1.4/authorized"%string;
     "echo 0 > /sys/bus/usb/devices/1-1.4/authorized"%string;
     "echo 1 > /sys/bus/usb/devices/1-1.4/authorized"%string].
Proof.
  destruct (startup_binds_once_then_only_authorizes
              (mk_world true 0 0 NUL (fun _ => NUL) (mk_fs None false 0)
                 (reading 1 0 0 0)
                 [mk_reply 1 0 (reading 0 0 0 0);
                  mk_reply 0 500000000 (reading 0 0 0 0);
                  mk_reply 1 0 (reading 0 1 0 0);
                  mk_reply 0 500000000 (reading 0 1 0 0)])) as (H & _);
    [reflexivity|reflexivity|reflexivity|].
  rewrite H. reflexivity.
Defined.



(** * Further properties of the quirk list editor *)

(** ** Files that are left alone *)

(** The function gives up without a trace when the quirk file cannot be
    opened for reading (line 143), when nothing can be read from it (line
    149), and when it cannot be opened for writing (line 191): the file
    system is as it was, whatever the file holds. *)
Theorem remove_quirk_best_effort (entry : list ascii) (before : ascii)
    (junk : nat -> ascii) (fs : file_system) :
  quirks_content fs = None \/ quirks_content fs = Some [] \/ quirks_writable fs = false ->
  remove_quirk entry before junk fs = fs.
Proof.
  intros [H|[H|H]]; unfold remove_quirk.
  - rewrite H. reflexivity.
  - rewrite H. reflexivity.
  - rewrite H. destruct (quirks_content fs) as [content|]; [|reflexivity].
    cbv zeta. destruct (Z.of_nat (length (take 1023 content)) =? 0); [reflexivity|].
    destruct (terminate_buffer _ _ _) as [h2 bytes_read].
    destruct (edit_buffer entry h2 1 bytes_read); reflexivity.
Qed.

Lemma remove_quirk_best_effort_witness :
  remove_quirk CARD_READER_QUIRK NUL (fun _ => NUL)
    (mk_fs (Some (lit "a,058f:6366:i")) false 0)
  = mk_fs (Some (lit "a,058f:6366:i")) false 0.
Proof.
  apply remove_quirk_best_effort. right. right. reflexivity.
Defined.

(** ** The block that [malloc] returns *)

(** The block is not initialised, and none of what it held reaches the
    file: with anything but a comma below the block, the outcome is the same
    for every initial content of the block. *)
Theorem remove_quirk_ignores_uninitialised_memory (entry : list ascii)
    (before : ascii) (junk1 junk2 : nat -> ascii) (fs : file_system) :
  before <> COMMA ->
  remove_quirk entry before junk1 fs = remove_quirk entry before junk2 fs.
Proof.
  intros Hb. destruct (quirks_content fs) as [content|] eqn:Hc.
  - destruct content as [|c content'] eqn:Hcontent.
    + rewrite !remove_quirk_best_effort by auto. reflexivity.
    + rewrite <- Hcontent in *.
      destruct (find_first entry (text_of content)) as [off|] eqn:F.
      * assert (Hentry : NUL ∉ entry).
        { destruct (find_first_split _ _ _ F) as (p & q & Heq & _).
          intros Hin. apply (cstring_nul_free (strip_newline (take 1023 content))).
          fold (text_of content). rewrite Heq, !elem_of_app. auto. }
        rewrite !(remove_quirk_found entry Hentry before _ fs content off Hc);
          try (intros _; exact Hb); try exact F; try (subst content; discriminate).
        reflexivity.
      * rewrite !(remove_quirk_absent entry before _ fs content Hc F). reflexivity.
  - rewrite !remove_quirk_best_effort by auto. reflexivity.
Qed.

Lemma remove_quirk_ignores_uninitialised_memory_witness :
  remove_quirk CARD_READER_QUIRK NUL (fun _ => COMMA)
    (mk_fs (Some (lit "058f:6366:i")) true 0)
  = remove_quirk CARD_READER_QUIRK NUL (fun _ => "i"%char)
      (mk_fs (Some (lit "058f:6366:i")) true 0).
Proof.
  apply remove_quirk_ignores_uninitialised_memory. discriminate.
Defined.

Lemma memmove_length_in_bounds (h : list ascii) (dest src n : Z) :
  0 <= dest <= src -> 0 <= n -> src + n <= Z.of_nat (length h) ->
  length (memmove h dest src n) = length h.
Proof.
  intros Hd Hn Hs. unfold memmove.
  rewrite !length_app, !length_take, !length_drop. lia.
Qed.

Lemma memmove_head (b : ascii) (rest : list ascii) (dest src n : Z) :
  1 <= dest -> head (memmove (b :: rest) dest src n) = Some b.
Proof.
  intros Hd. unfold memmove.
  destruct (Z.to_nat dest) as [|k] eqn:E; [lia|]. reflexivity.
Qed.

Lemma cstring_length (l : list ascii) : (length (cstring l) <= length l)%nat.
Proof.
  destruct (cstring_prefix l) as [t Ht]. rewrite Ht at 2.
  rewrite length_app. lia.
Qed.

Lemma cstring_length_terminated (s r : list ascii) :
  (length (cstring (s ++ NUL :: r)) <= length s)%nat.
Proof.
  induction s as [|c s IH]; simpl; [lia|].
  destruct (Ascii.eqb c NUL); simpl; lia.
Qed.

(** An edit of a terminated buffer moves characters within the heap. *)
Lemma edit_buffer_length (entry : list ascii) (b : ascii) (s r : list ascii)
    (h' : list ascii) :
  Z.of_nat (length s) + 1 < 2 ^ 32 ->
  edit_buffer entry (b :: s ++ NUL :: r) 1 (Z.of_nat (length s) + 1) = Some h' ->
  length h' = length (b :: s ++ NUL :: r).
Proof.
  intros Hsize. unfold edit_buffer, strstr.
  destruct (find_first entry (string_at (b :: s ++ NUL :: r) 1)) as [off|] eqn:F;
    [|discriminate].
  cbn [fmap option_fmap option_map]. cbv zeta.
  apply find_first_bound in F.
  assert (Hstr : (length (string_at (b :: s ++ NUL :: r) 1) <= length s)%nat).
  { unfold string_at. change (Z.to_nat 1) with 1%nat. simpl. rewrite drop_0.
    apply cstring_length_terminated. }
  assert (Hlen : size_t (Z.of_nat (length s) + 1 - (1 + Z.of_nat off - 1)
                         - Z.of_nat (length entry))
                 = Z.of_nat (length s) + 1 - Z.of_nat off - Z.of_nat (length entry)).
  { rewrite size_t_small; lia. }
  rewrite Hlen.
  assert (Hh : Z.of_nat (length (b :: s ++ NUL :: r))
               = Z.of_nat (length s) + 2 + Z.of_nat (length r)).
  { simpl. rewrite length_app. simpl. lia. }
  destruct ((0 <? 1 + Z.of_nat off)
            && Ascii.eqb (load (b :: s ++ NUL :: r) (1 + Z.of_nat off - 1)) COMMA).
  - intros [= <-]. apply memmove_length_in_bounds; lia.
  - destruct (Ascii.eqb (load (b :: s ++ NUL :: r)
                           (1 + Z.of_nat off + Z.of_nat (length entry))) COMMA).
    + intros [= <-].
      apply memmove_length_in_bounds; rewrite ?size_t_small; lia.
    + intros [= <-]. apply memmove_length_in_bounds; lia.
Qed.

(** With anything but a comma below the buffer, an edit leaves that
    character alone. *)
Lemma edit_buffer_head (entry : list ascii) (b : ascii) (rest h' : list ascii)
    (bytes_read : Z) :
  b <> COMMA ->
  edit_buffer entry (b :: rest) 1 bytes_read = Some h' ->
  head h' = Some b.
Proof.
  intros Hb. unfold edit_buffer, strstr.
  destruct (find_first entry (string_at (b :: rest) 1)) as [off|]; [|discriminate].
  cbn [fmap option_fmap option_map]. cbv zeta.
  destruct ((0 <? 1 + Z.of_nat off)
            && Ascii.eqb (load (b :: rest) (1 + Z.of_nat off - 1)) COMMA) eqn:Hcb.
  - intros [= <-]. apply memmove_head.
    destruct off as [|off]; [|lia]. exfalso.
    apply andb_true_iff in Hcb as [_ Hcb]. apply Ascii.eqb_eq in Hcb.
    apply Hb. exact Hcb.
  - destruct (Ascii.eqb (load (b :: rest) (1 + Z.of_nat off + Z.of_nat (length entry)))
                COMMA); intros [= <-]; apply memmove_head; lia.
Qed.

(** The function stays inside its block.  After the file was read and the
    buffer terminated, the heap still has the block's 1024 characters and
    the one below it, and [bytes_read] is at most 1024 (the terminator fits
    because [fread] is asked for 1023 characters).  With anything but a
    comma below the block, the edit keeps the size of the heap and the
    character below the block. *)
Theorem remove_quirk_stays_in_block (entry data : list ascii) (before : ascii)
    (junk : nat -> ascii) (h2 : list ascii) (bytes_read : Z) :
  data <> [] -> (length data <= 1023)%nat ->
  before <> COMMA ->
  terminate_buffer (store_bytes (before :: malloc_block junk 1024) 1 data) 1
    (Z.of_nat (length data)) = (h2, bytes_read) ->
  length h2 = 1025%nat
  /\ head h2 = Some before
  /\ 1 <= bytes_read <= 1024
  /\ load h2 bytes_read = NUL
  /\ forall h3, edit_buffer entry h2 1 bytes_read = Some h3 ->
                length h3 = 1025%nat /\ head h3 = Some before.
Proof.
  intros Hne Hlen Hb Hterm.
  destruct (read_buffer before junk data Hne Hlen) as [J HJ].
  rewrite Hterm in HJ. injection HJ as -> ->.
  pose proof (strip_newline_length data) as Hstrip.
  assert (Hsize : length (before :: strip_newline data ++ NUL :: J) = 1025%nat).
  { apply (f_equal fst) in Hterm. cbn [fst] in Hterm. rewrite <- Hterm.
    unfold terminate_buffer.
    assert (Hstore : length (store_bytes (before :: malloc_block junk 1024) 1 data)
                     = 1025%nat).
    { unfold store_bytes. change (Z.to_nat 1) with 1%nat.
      generalize (malloc_block_length junk 1024).
      generalize (malloc_block junk 1024). intros block Hblock.
      rewrite !length_app, length_take, length_drop. cbn [length]. lia. }
    destruct (Ascii.eqb _ NEWLINE); cbn [fst]; unfold store;
      match goal with |- context [if ?c then _ else _] => destruct c end;
      rewrite ?length_insert; exact Hstore. }
  split; [exact Hsize|]. split; [reflexivity|]. split; [lia|]. split.
  - apply (load_middle _ (before :: strip_newline data) J NUL); [reflexivity|].
    simpl. lia.
  - intros h3 Hedit. split.
    + rewrite <- Hsize. apply (edit_buffer_length entry before _ _ h3); [lia|].
      rewrite <- Hedit. f_equal. lia.
    + apply (edit_buffer_head entry before _ h3 _ Hb Hedit).
Qed.

Lemma remove_quirk_stays_in_block_witness :
  length (fst (terminate_buffer
                 (store_bytes (NUL :: malloc_block (fun _ => NUL) 1024) 1
                    (lit "a,058f:6366:i"))
                 1 13)) = 1025%nat.
Proof.
  destruct (terminate_buffer
              (store_bytes (NUL :: malloc_block (fun _ => NUL) 1024) 1
                 (lit "a,058f:6366:i")) 1 13) as [h2 bytes_read] eqn:E.
  destruct (remove_quirk_stays_in_block CARD_READER_QUIRK (lit "a,058f:6366:i") NUL
              (fun _ => NUL) h2 bytes_read) as (H & _).
  - discriminate.
  - vm_compute. lia.
  - discriminate.
  - exact E.
  - exact H.
Defined.

(** ** A comma below the buffer *)

(** Line 166 guards the read of [pos - 1] with [pos > 0], which holds for
    every pointer that [strstr] returns.  When the match starts the buffer
    and the character below the buffer happens to be a comma, that comma is
    taken for the comma before the match: [memmove] is given [quirks - 1] as
    its destination and overwrites the character below the buffer with the
    one that follows the match.  The text in the buffer loses its first
    character after the match, comma or not, and a text that is just the
    entry is left in place. *)
Theorem comma_below_buffer_is_taken_for_a_delimiter (entry text : list ascii) :
  NUL ∉ text -> (length text <= 1023)%nat ->
  find_first entry text = Some O ->
  (exists h',
      edit_buffer entry (COMMA :: text ++ [NUL]) 1 (size_t (Z.of_nat (length text) + 1))
      = Some h'
      /\ head h' = head (drop (length entry) text ++ [NUL]))
  /\ removeEntry entry COMMA text
     = match drop (length entry) text with
       | [] => text
       | _ :: q' => q'
       end.
Proof.
  intros Htext Hlen F.
  destruct (find_first_split _ _ _ F) as (p & q & Heq & Hp & _).
  destruct p; [|discriminate Hp]. simpl in Heq. subst text. clear Hp.
  assert (Hq : NUL ∉ q) by (intros Hin; apply Htext, elem_of_app; auto).
  assert (Hdrop : drop (length entry) (entry ++ q) = q) by apply drop_app_length.
  set (h := COMMA :: (entry ++ q) ++ [NUL]).
  assert (Hedit : edit_buffer entry h 1 (size_t (Z.of_nat (length (entry ++ q)) + 1))
                  = Some ((q ++ [NUL])
                            ++ drop (length (q ++ [NUL]))
                                 ((COMMA :: entry) ++ (q ++ [NUL]) ++ []))).
  { unfold edit_buffer, strstr.
    assert (Hs : string_at h 1 = entry ++ q) by (apply string_at_block, Htext).
    rewrite Hs, F. cbn [fmap option_fmap option_map]. cbv zeta.
    change (1 + Z.of_nat 0 - 1) with 0.
    rewrite (load_middle h [] ((entry ++ q) ++ [NUL]) COMMA) by reflexivity.
    rewrite Ascii.eqb_refl. cbn [Z.ltb Z.compare andb].
    f_equal.
    rewrite (memmove_close_gap h [] (COMMA :: entry) (q ++ [NUL]) []).
    - reflexivity.
    - subst h. same_list.
    - reflexivity.
    - simpl. lia.
    - rewrite !length_app in *. simpl length.
      rewrite (size_t_small (Z.of_nat (length entry + length q) + 1)) by lia.
      rewrite size_t_small by lia. lia. }
  split.
  - eexists. split; [exact Hedit|]. rewrite Hdrop.
    destruct q; reflexivity.
  - unfold removeEntry. fold h. rewrite Hedit, Hdrop.
    unfold string_at. change (Z.to_nat 1) with 1%nat.
    destruct q as [|c q'].
    + simpl. rewrite drop_0, app_nil_r. apply cstring_terminated.
      intros Hin. apply Htext. rewrite app_nil_r. exact Hin.
    + simpl. rewrite drop_0, <- app_assoc. apply cstring_terminated.
      intros Hin. apply Hq. right. exact Hin.
Qed.

Lemma comma_below_buffer_is_taken_for_a_delimiter_witness :
  removeEntry CARD_READER_QUIRK COMMA (lit "058f:6366:iu,b") = lit ",b".
Proof.
  destruct (comma_below_buffer_is_taken_for_a_delimiter CARD_READER_QUIRK
              (lit "058f:6366:iu,b")) as [_ H].
  - by_computation.
  - vm_compute. lia.
  - reflexivity.
  - exact H.
Defined.

(** ** What is written back *)

Lemma delete_match_length (text : list ascii) (off len : nat) :
  (off + len <= length text)%nat ->
  (length text - (len + 1) <= length (delete_match text off len) <= length text - len)%nat.
Proof.
  intros Hb. unfold delete_match.
  destruct off as [|o].
  - destruct (bool_decide (text !! (0 + len)%nat = Some COMMA)) eqn:E.
    + apply bool_decide_eq_true_1, lookup_lt_Some in E.
      rewrite length_app, length_take, length_drop. lia.
    + rewrite length_app, length_take, length_drop. lia.
  - destruct (bool_decide (text !! o = Some COMMA)).
    + rewrite length_app, length_take, length_drop. lia.
    + destruct (bool_decide (text !! (S o + len)%nat = Some COMMA)) eqn:E.
      * apply bool_decide_eq_true_1, lookup_lt_Some in E.
        rewrite length_app, length_take, length_drop. lia.
      * rewrite length_app, length_take, length_drop. lia.
Qed.

(** When the entry is found (with no comma below the buffer if it is found
    at the start) and the file can be written, the file is rewritten once.
    What is written holds no NUL and no character that the file did not
    hold, and it is shorter than the text that was read, by the length of
    the entry or by one more: whatever lies beyond the first 1023
    characters of the file, or beyond a NUL in it, is not written back. *)
Theorem rewritten_file_is_shorter (entry content : list ascii) (before : ascii)
    (junk : nat -> ascii) (fs : file_system) (off : nat) :
  quirks_content fs = Some content ->
  quirks_writable fs = true ->
  find_first entry (text_of content) = Some off ->
  (off = O -> before <> COMMA) ->
  entry <> [] ->
  exists written,
    remove_quirk entry before junk fs
    = mk_fs (Some written) true (S (quirks_rewrites fs))
    /\ (NUL ∉ written)
    /\ (written ⊆ content)
    /\ (length (text_of content) - (length entry + 1) <= length written
        <= length (text_of content) - length entry)%nat
    /\ (length (text_of content) <= 1023)%nat
    /\ (length (text_of content) <= length content)%nat.
Proof.
  intros Hc Hw F Hb Hentry.
  assert (Hnul : NUL ∉ text_of content) by apply cstring_nul_free.
  destruct (find_first_split _ _ _ F) as (p & q & Heq & _).
  assert (Hne : NUL ∉ entry).
  { intros Hin. apply Hnul. rewrite Heq, !elem_of_app. auto. }
  assert (Hcontent : content <> []).
  { intros ->. apply find_first_bound in F. simpl in F.
    destruct entry; [congruence|simpl in F; lia]. }
  exists (delete_match (text_of content) off (length entry)).
  split; [|split; [|split; [|split; [|split]]]].
  - rewrite (remove_quirk_found entry Hne before junk fs content off Hc Hcontent F Hb).
    rewrite Hw. reflexivity.
  - intros Hin. apply Hnul, (delete_match_subseteq _ _ _ _ Hin).
  - intros x Hx. apply delete_match_subseteq in Hx.
    destruct (text_of_prefix content) as [t Ht]. rewrite Ht.
    apply elem_of_app. left. exact Hx.
  - apply delete_match_length, (find_first_bound _ _ _ F).
  - unfold text_of.
    pose proof (cstring_length (strip_newline (take 1023 content))).
    pose proof (strip_newline_length (take 1023 content)).
    rewrite length_take in *. lia.
  - destruct (text_of_prefix content) as [t Ht]. rewrite Ht at 2.
    rewrite length_app. lia.
Qed.

Lemma rewritten_file_is_shorter_witness :
  exists written,
    remove_quirk CARD_READER_QUIRK NUL (fun _ => NUL)
      (mk_fs (Some (lit "a,058f:6366:i,b")) true 0)
    = mk_fs (Some written) true 1
    /\ (NUL ∉ written).
Proof.
  destruct (rewritten_file_is_shorter CARD_READER_QUIRK (lit "a,058f:6366:i,b") NUL
              (fun _ => NUL) (mk_fs (Some (lit "a,058f:6366:i,b")) true 0) 2%nat)
    as (written & H1 & H2 & _).
  - reflexivity.
  - reflexivity.
  - vm_compute. reflexivity.
  - intros; discriminate.
  - discriminate.
  - exists written. split; assumption.
Defined.

(** ** Lists of entries *)

(** When the first occurrence of the entry in a comma-delimited list is one
    of the entries (no entry before it contains it), the editor returns the
    other entries, each unchanged, in their order and joined by single
    commas; copies of the entry further down the list stay. *)
Theorem removeEntry_keeps_other_entries (entry : list ascii) (before : ascii)
    (es1 es2 : list (list ascii)) :
  Forall (fun e => COMMA ∉ e) (es1 ++ entry :: es2) ->
  Forall (fun e => NUL ∉ e) (es1 ++ entry :: es2) ->
  Forall (fun e => forall p q, e <> p ++ entry ++ q) es1 ->
  (length (join_commas (es1 ++ entry :: es2)) <= 1023)%nat ->
  (es1 = [] -> before <> COMMA) ->
  removeEntry entry before (join_commas (es1 ++ entry :: es2))
  = join_commas (es1 ++ es2)
  /\ (es1 ++ es2 <> [] ->
      entries_of (removeEntry entry before (join_commas (es1 ++ entry :: es2)))
      = es1 ++ es2).
Proof.
  intros Hcomma Hnul Habs Hlen Hb.
  assert (Hentry : COMMA ∉ entry).
  { rewrite Forall_app, Forall_cons in Hcomma. tauto. }
  rewrite (removeEntry_whole_entry entry before es1 es2 Hentry Hnul Habs Hlen Hb).
  split; [reflexivity|]. intros Hne.
  destruct (es1 ++ es2) as [|e es] eqn:E; [congruence|].
  apply entries_of_join_commas. rewrite <- E.
  rewrite Forall_app, Forall_cons in Hcomma. rewrite Forall_app. tauto.
Qed.

Lemma removeEntry_keeps_other_entries_witness :
  removeEntry CARD_READER_QUIRK NUL
    (join_commas ([lit "abcd:1234:u"] ++ CARD_READER_QUIRK
                    :: [lit "0781:5583:b"; CARD_READER_QUIRK]))
  = lit "abcd:1234:u,0781:5583:b,058f:6366:i".
Proof.
  destruct (removeEntry_keeps_other_entries CARD_READER_QUIRK NUL
              [lit "abcd:1234:u"] [lit "0781:5583:b"; CARD_READER_QUIRK]) as [H _].
  - repeat constructor; by_computation.
  - repeat constructor; by_computation.
  - constructor; [|constructor]. apply find_first_None. vm_compute. reflexivity.
  - vm_compute. lia.
  - discriminate.
  - rewrite H. reflexivity.
Defined.

Lemma find_first_join_commas_None (entry : list ascii) (es : list (list ascii)) :
  entry <> [] -> COMMA ∉ entry ->
  Forall (fun e => forall p q, e <> p ++ entry ++ q) es ->
  find_first entry (join_commas es) = None.
Proof.
  intros Hne Hcomma. induction 1 as [|e es He Hes IH].
  - destruct entry; [congruence|reflexivity].
  - destruct es as [|e' es].
    + simpl. apply (find_first_absent entry e []). rewrite app_nil_r. exact He.
    + rewrite join_commas_cons, (find_first_skip_entry entry e _ Hcomma He), IH.
      reflexivity.
Qed.

(** Running the editor again changes nothing, when the entry was removed as
    a whole entry and no other entry of the list contains it. *)
Theorem removeEntry_twice (entry : list ascii) (before : ascii)
    (es1 es2 : list (list ascii)) :
  entry <> [] ->
  COMMA ∉ entry ->
  Forall (fun e => NUL ∉ e) (es1 ++ entry :: es2) ->
  Forall (fun e => forall p q, e <> p ++ entry ++ q) (es1 ++ es2) ->
  (length (join_commas (es1 ++ entry :: es2)) <= 1023)%nat ->
  (es1 = [] -> before <> COMMA) ->
  removeEntry entry before
    (removeEntry entry before (join_commas (es1 ++ entry :: es2)))
  = removeEntry entry before (join_commas (es1 ++ entry :: es2)).
Proof.
  intros Hne Hcomma Hnul Habs Hlen Hb.
  assert (Habs1 : Forall (fun e => forall p q, e <> p ++ entry ++ q) es1).
  { rewrite Forall_app in Habs. tauto. }
  rewrite (removeEntry_whole_entry entry before es1 es2 Hcomma Hnul Habs1 Hlen Hb).
  apply removeEntry_absent, find_first_None.
  apply find_first_join_commas_None; assumption.
Qed.

Lemma removeEntry_twice_witness :
  removeEntry CARD_READER_QUIRK NUL
    (removeEntry CARD_READER_QUIRK NUL (lit "abcd:1234:u,058f:6366:i"))
  = removeEntry CARD_READER_QUIRK NUL (lit "abcd:1234:u,058f:6366:i").
Proof.
  apply (removeEntry_twice CARD_READER_QUIRK NUL [lit "abcd:1234:u"] []).
  - discriminate.
  - by_computation.
  - repeat constructor; by_computation.
  - constructor; [|constructor]. apply find_first_None. vm_compute. reflexivity.
  - vm_compute. lia.
  - discriminate.
Defined.

(** ** What the search does not reach *)

Lemma cstring_of_prefix (u : list ascii) :
  forall v s t, u ++ v = s ++ NUL :: t -> exists w, s = cstring u ++ w.
Proof.
  induction u as [|c u IH]; intros v s t H; [exists s; reflexivity|]. simpl.
  destruct (Ascii.eqb_spec c NUL) as [->|Hc]; [exists s; reflexivity|].
  destruct s as [|c' s]; simpl in H; injection H as -> H; [congruence|].
  destruct (IH _ _ _ H) as [w ->]. exists w. reflexivity.
Qed.

(** The search sees the C string in the first 1023 characters of the file.
    An entry that occurs only behind a NUL character, or only beyond the
    first 1023 characters (or across that limit), is not found, and the file
    is left as it is. *)
Theorem entry_out_of_reach_is_kept (entry : list ascii) (before : ascii)
    (junk : nat -> ascii) (fs : file_system) :
  (forall s t : list ascii,
      quirks_content fs = Some (s ++ NUL :: t) ->
      (forall p q, s <> p ++ entry ++ q) ->
      remove_quirk entry before junk fs = fs)
  /\ (forall pad rest : list ascii,
        quirks_content fs = Some (pad ++ rest) ->
        length pad = 1023%nat ->
        (forall p q, pad <> p ++ entry ++ q) ->
        remove_quirk entry before junk fs = fs).
Proof.
  split.
  - intros s t Hc Habs.
    apply (remove_quirk_absent entry before junk fs _ Hc).
    destruct (strip_newline_prefix (take 1023 (s ++ NUL :: t))) as [v Hv].
    destruct (cstring_of_prefix (strip_newline (take 1023 (s ++ NUL :: t)))
                (v ++ drop 1023 (s ++ NUL :: t)) s t) as [w Hw].
    { rewrite app_assoc, <- Hv. apply take_drop. }
    apply (find_first_absent entry _ w). unfold text_of in *. rewrite <- Hw. exact Habs.
  - intros pad rest Hc Hlen Habs.
    apply (remove_quirk_absent entry before junk fs _ Hc).
    unfold text_of. rewrite take_app_length' by (symmetry; exact Hlen).
    destruct (cstring_prefix (strip_newline pad)) as [t1 H1].
    destruct (strip_newline_prefix pad) as [t2 H2].
    apply (find_first_absent entry _ (t1 ++ t2)).
    rewrite app_assoc, <- H1, <- H2. exact Habs.
Qed.

Lemma entry_out_of_reach_is_kept_witness :
  remove_quirk CARD_READER_QUIRK NUL (fun _ => NUL)
    (mk_fs (Some (lit "a" ++ NUL :: lit ",058f:6366:i")) true 0)
  = mk_fs (Some (lit "a" ++ NUL :: lit ",058f:6366:i")) true 0.
Proof.
  apply (proj1 (entry_out_of_reach_is_kept CARD_READER_QUIRK NUL (fun _ => NUL)
                  (mk_fs (Some (lit "a" ++ NUL :: lit ",058f:6366:i")) true 0))
           (lit "a") (lit ",058f:6366:i")).
  - reflexivity.
  - apply find_first_None. vm_compute. reflexivity.
Defined.

(** * Further properties of the sampler, the engine and the controller *)

(** ** The bitmask *)

(** A successful read gives the sum of the flags [SD_PRESENT], [XD_PRESENT],
    [MS_PRESENT] and [CF_PRESENT] of the lines that read nonzero, whatever
    the nonzero value.  Every result lies between 0 and 15, and it is 0
    exactly when the read failed or no line is active. *)
Theorem check_card_presence_flags (rd : bulk_values) :
  (get_value_ret rd = 0 ->
   check_card_presence rd
   = (if line_values rd 0 =? 0 then 0 else SD_PRESENT)
     + (if line_values rd 1 =? 0 then 0 else XD_PRESENT)
     + (if line_values rd 2 =? 0 then 0 else MS_PRESENT)
     + (if line_values rd 3 =? 0 then 0 else CF_PRESENT))
  /\ 0 <= check_card_presence rd <= 15
  /\ (check_card_presence rd = 0 <->
      get_value_ret rd <> 0
      \/ forall i, (i < NUM_PRESENCE_GPIOS)%nat -> line_values rd i = 0).
Proof.
  unfold check_card_presence, NUM_PRESENCE_GPIOS. cbn [seq fold_left].
  destruct (Z.eqb_spec (get_value_ret rd) 0) as [Hret|Hret]; cbn [negb].
  - destruct (Z.eqb_spec (line_values rd 0) 0) as [H0|H0],
             (Z.eqb_spec (line_values rd 1) 0) as [H1|H1],
             (Z.eqb_spec (line_values rd 2) 0) as [H2|H2],
             (Z.eqb_spec (line_values rd 3) 0) as [H3|H3];
      cbn [negb]; (split; [intros _; vm_compute; reflexivity|]);
      (split; [vm_compute; split; discriminate|]);
      (split;
       [ intros E; vm_compute in E; try discriminate E; right;
         intros [|[|[|[|i]]]] Hi; try assumption; lia
       | intros [Hc|Hall]; [contradiction|];
         try reflexivity; exfalso;
         first [ apply H0, Hall; lia | apply H1, Hall; lia
               | apply H2, Hall; lia | apply H3, Hall; lia ] ]).
  - split; [intros E; contradiction|]. split; [lia|].
    split; [intros _; left; exact Hret|reflexivity].
Qed.

Lemma check_card_presence_flags_witness :
  check_card_presence (reading 7 0 0 (-1)) = SD_PRESENT + CF_PRESENT.
Proof.
  rewrite (proj1 (check_card_presence_flags (reading 7 0 0 (-1)))).
  - reflexivity.
  - reflexivity.
Defined.

(** ** Waits that fail *)

Lemma stabilize_exit_inv (replies : list gpio_reply) :
  forall bouncy_state status,
    stabilize bouncy_state replies = Exit status ->
    status = 5
    /\ exists pre o rest,
         replies = pre ++ o :: rest
         /\ Forall (fun o => 0 <= wait_result o) pre
         /\ wait_result o < 0.
Proof.
  induction replies as [|r tr IH]; intros b status; simpl; [discriminate|].
  destruct (stabilize_step_cases b r) as [[Hr E]|[[Hr E]|[(Hr & _ & E)|(Hr & _ & E)]]];
    rewrite E.
  - intros [= <-]. split; [reflexivity|]. exists [], r, tr. auto.
  - intros H. destruct (IH _ _ H) as (-> & pre & o & rest & -> & Hpre & Ho).
    split; [reflexivity|]. exists (r :: pre), o, rest.
    repeat split; [constructor; [lia|exact Hpre]|exact Ho].
  - discriminate.
  - intros H. destruct (IH _ _ H) as (-> & pre & o & rest & -> & Hpre & Ho).
    split; [reflexivity|]. exists (r :: pre), o, rest.
    repeat split; [constructor; [lia|exact Hpre]|exact Ho].
Qed.

(** The function leaves the process in two ways only.  The first wait has
    no timeout and anything but an event is fatal there, a return of 0
    included: status 4.  A later wait is fatal when it returns a negative
    number: status 5, whatever was sampled until then. *)
Theorem wait_exit_statuses :
  (forall (o : gpio_reply) (rest : list gpio_reply),
      wait_result o <= 0 -> wait_for_card_presence_change (o :: rest) = Exit 4)
  /\ (forall (replies : list gpio_reply) (status : Z),
        wait_for_card_presence_change replies = Exit status ->
        (status = 4 /\ exists o rest, replies = o :: rest /\ wait_result o <= 0)
        \/ (status = 5
            /\ exists first pre o rest,
                 replies = first :: pre ++ o :: rest
                 /\ 0 < wait_result first
                 /\ Forall (fun o => 0 <= wait_result o) pre
                 /\ wait_result o < 0)).
Proof.
  unfold wait_for_card_presence_change, gpiod_line_event_wait_bulk. split.
  - intros o rest Ho. destruct (Z.leb_spec (wait_result o) 0); [reflexivity|lia].
  - intros [|first tr] status; [discriminate|]. cbv zeta.
    destruct (Z.leb_spec (wait_result first) 0) as [Hf|Hf].
    + intros [= <-]. left. split; [reflexivity|]. exists first, tr. auto.
    + intros H. right.
      destruct (stabilize_exit_inv _ _ _ H) as (-> & pre & o & rest & -> & Hpre & Ho).
      split; [reflexivity|]. exists first, pre, o, rest. auto.
Qed.

Lemma wait_exit_statuses_witness :
  wait_for_card_presence_change [mk_reply 0 0 (reading 1 0 0 0)] = Exit 4.
Proof.
  apply (proj1 wait_exit_statuses). simpl. lia.
Defined.

(** ** A candidate that no edge confirms *)

Lemma stabilize_unsettled (replies : list gpio_reply) (bouncy_state : Z) :
  Forall (unsettled bouncy_state) replies ->
  stabilize bouncy_state replies = Pending.
Proof.
  induction 1 as [|o tr [H0 Hs] Htr IH]; [reflexivity|]. simpl.
  rewrite stabilize_step_changed by assumption. exact IH.
Qed.

(** The candidate is the sample taken after the last edge.  If the lines
    read something else at every timeout after it and no further edge is
    reported, the loop never leaves: however many timeouts follow, the
    function has not returned and the controller has issued no command. *)
Theorem unconfirmed_candidate_never_settles (fuel : nat) (d : Z)
    (edge : gpio_reply) (replies : list gpio_reply) :
  0 < wait_result edge ->
  Forall (unsettled (check_card_presence (sampled edge))) replies ->
  wait_for_card_presence_change (edge :: replies) = Pending
  /\ monitor (S fuel) d (edge :: replies) = mk_run [] d Blocked.
Proof.
  intros He Hall.
  assert (Hw : wait_for_card_presence_change (edge :: replies) = Pending).
  { unfold wait_for_card_presence_change, gpiod_line_event_wait_bulk. cbv zeta.
    destruct (Z.leb_spec (wait_result edge) 0); [lia|].
    apply stabilize_unsettled, Hall. }
  split; [exact Hw|]. cbn [monitor]. rewrite Hw. reflexivity.
Qed.

Lemma unconfirmed_candidate_never_settles_witness :
  monitor 1 0 [mk_reply 1 0 (reading 1 0 0 0);
               mk_reply 0 500000000 (reading 0 1 0 0);
               mk_reply 0 500000000 (reading 0 1 0 0)]
  = mk_run [] 0 Blocked.
Proof.
  apply (unconfirmed_candidate_never_settles 0 0 (mk_reply 1 0 (reading 1 0 0 0))).
  - reflexivity.
  - repeat constructor; vm_compute; discriminate.
Defined.

(** ** Runs and longer runs *)

Lemma monitor_extend (fuel : nat) (more : list gpio_reply) :
  forall d replies,
    exists later,
      commands (monitor fuel d (replies ++ more))
      = commands (monitor fuel d replies) ++ later.
Proof.
  induction fuel as [|fuel IH]; intros d tr; [exists []; reflexivity|]. simpl.
  pose proof (wait_extend tr more) as H.
  destruct (wait_for_card_presence_change tr) as [status| |d' rest].
  - rewrite H. exists []. reflexivity.
  - eexists. reflexivity.
  - rewrite H. destruct (IH d' rest) as [later Hl]. exists later.
    simpl. rewrite Hl. reflexivity.
Qed.

(** What the daemon has done is not undone by what happens later: the
    commands of a run are the first commands of every run that starts the
    same and receives further replies. *)
Theorem commands_are_not_retracted (w : world) (more : list gpio_reply) :
  exists later,
    commands (fst (main (mk_world (chip_found w) (get_lines_ret w) (request_ret w)
                           (heap_before w) (heap_junk w) (files w)
                           (initial_values w) (replies w ++ more))))
    = commands (fst (main w)) ++ later.
Proof.
  unfold main. cbn [chip_found get_lines_ret request_ret heap_before heap_junk files
                    initial_values replies].
  destruct (chip_found w); cbn [negb]; [|exists []; reflexivity].
  destruct (get_lines_ret w =? 0); cbn [negb]; [|exists []; reflexivity].
  destruct (request_ret w =? 0); cbn [negb]; [|exists []; reflexivity].
  cbn [fst commands].
  rewrite (monitor_fuel (S (length (replies w))) (S (length (replies w ++ more)))
             _ (replies w)) by (rewrite ?length_app; lia).
  destruct (monitor_extend (S (length (replies w ++ more))) more
              (check_card_presence (initial_values w)) (replies w)) as [later Hl].
  exists later. rewrite Hl, app_assoc. reflexivity.
Qed.

(** A command takes an edge and a timeout at least: the loop issues no
    more than one command for every two replies. *)
Theorem two_replies_per_command (fuel : nat) :
  forall (d : Z) (replies : list gpio_reply),
    (2 * length (commands (monitor fuel d replies)) <= length replies)%nat.
Proof.
  induction fuel as [|fuel IH]; intros d tr; [simpl; lia|]. simpl.
  destruct (wait_for_card_presence_change tr) as [status| |d' rest] eqn:E;
    [simpl; lia|simpl; lia|].
  apply wait_length in E. specialize (IH d' rest). simpl. lia.
Qed.

(** ** How main ends *)

Lemma monitor_ended (fuel : nat) :
  forall d replies,
    (length replies < fuel)%nat ->
    ended (monitor fuel d replies) = Blocked
    \/ ended (monitor fuel d replies) = Exited 4
    \/ ended (monitor fuel d replies) = Exited 5.
Proof.
  induction fuel as [|fuel IH]; intros d tr Hf; [lia|]. simpl.
  destruct (wait_for_card_presence_change tr) as [status| |d' rest] eqn:E.
  - destruct (proj2 wait_exit_statuses _ _ E) as [[-> _]|[-> _]]; auto.
  - auto.
  - simpl. apply IH. apply wait_length in E. lia.
Qed.

(** The three steps of the set-up fail in order with the statuses 1, 2 and
    3; then no command is given and the quirk file is not touched.  After
    the set-up the quirk is removed, whether or not a card is present, and
    the process never returns from [main]: it is blocked in a wait or it
    has left with status 4 or 5. *)
Theorem main_endings (w : world) :
  (chip_found w = false -> main w = (mk_run [] 0 (Exited 1), files w))
  /\ (chip_found w = true -> get_lines_ret w <> 0 ->
      main w = (mk_run [] 0 (Exited 2), files w))
  /\ (chip_found w = true -> get_lines_ret w = 0 -> request_ret w <> 0 ->
      main w = (mk_run [] 0 (Exited 3), files w))
  /\ (chip_found w = true -> get_lines_ret w = 0 -> request_ret w = 0 ->
      snd (main w) = remove_card_reader_quirk (heap_before w) (heap_junk w) (files w)
      /\ (ended (fst (main w)) = Blocked
          \/ ended (fst (main w)) = Exited 4
          \/ ended (fst (main w)) = Exited 5)).
Proof.
  unfold main. split; [|split; [|split]].
  - intros ->. reflexivity.
  - intros -> H. destruct (Z.eqb_spec (get_lines_ret w) 0); [contradiction|reflexivity].
  - intros -> -> H. cbn [negb Z.eqb].
    destruct (Z.eqb_spec (request_ret w) 0); [contradiction|reflexivity].
  - intros -> -> ->. cbn [negb Z.eqb fst snd ended]. split; [reflexivity|].
    apply monitor_ended. lia.
Qed.

Lemma main_endings_witness :
  main (mk_world true 0 (-1) NUL (fun _ => NUL) (mk_fs (Some (lit "058f:6366:i")) true 0)
          (reading 1 0 0 0) [])
  = (mk_run [] 0 (Exited 3), mk_fs (Some (lit "058f:6366:i")) true 0).
Proof.
  apply (proj1 (proj2 (proj2 (main_endings
           (mk_world true 0 (-1) NUL (fun _ => NUL)
              (mk_fs (Some (lit "058f:6366:i")) true 0) (reading 1 0 0 0) []))))).
  - reflexivity.
  - reflexivity.
  - discriminate.
Defined.

(** ** The last command *)



